(** * Yunikorn scheduler core: queues, asks, sorting, placement, preemption

    A shallow embedding of the scheduler-side Go code
    (package [scheduler] and package [placement]) together with the
    properties its specification states about it. *)

From Stdlib Require Import ZArith QArith Ascii.
From stdpp Require Import base option list sorting gmap strings fin_maps.

Local Open Scope Z_scope.

(** ** Package [resources] *)

Module resources.

(** Modelled from the spec: package [resources] (the [Resource] type and
    its operations) is imported by the scheduler; its source lies outside
    the sources covered here.  The spec gives: a Resource is a mapping from
    resource-type name to an integer quantity, missing keys are treated as
    zero, and all arithmetic is componentwise. *)
Abbreviation Resource := (gmap string Z).

(** Quantity bound to [k]; a missing key reads as zero. *)
Definition get (r : Resource) (k : string) : Z := default 0 (r !! k).

(** Componentwise lifting of a binary operation; a key is present in the
    result when it is present in either argument. *)
Definition lift2 (f : Z → Z → Z) (a b : Resource) : Resource :=
  merge (λ ox oy,
           match ox, oy with
           | None, None => None
           | _, _ => Some (f (default 0 ox) (default 0 oy))
           end) a b.

Definition NewResource : Resource := ∅.
Definition Zero : Resource := ∅.

(** Modelled from the spec: [add]. *)
Definition Add (left right : Resource) : Resource := lift2 Z.add left right.

(** Modelled from the spec: [sub]; the result may hold negative quantities. *)
Definition Sub (left right : Resource) : Resource := lift2 Z.sub left right.

(** Modelled from the spec: [sub-eliminate-negative], componentwise max
    with 0 after subtraction. *)
Definition SubEliminateNegative (left right : Resource) : Resource :=
  lift2 (λ x y, Z.max 0 (x - y)) left right.

(** Modelled from the spec: [componentwise-max]. *)
Definition ComponentWiseMax (left right : Resource) : Resource :=
  lift2 Z.max left right.

(** Modelled from the spec: [strictly-greater-than-zero], any component
    is greater than zero. *)
Definition StrictlyGreaterThanZero (larger : Resource) : bool :=
  bool_decide (map_Exists (λ _ v, 0 < v) larger).

(** Modelled from the spec: [strictly-greater-than], all components
    greater or equal and at least one greater. *)
Definition StrictlyGreaterThan (larger smaller : Resource) : bool :=
  bool_decide (map_Forall (λ _ v, 0 ≤ v) (Sub larger smaller))
  && bool_decide (map_Exists (λ _ v, 0 < v) (Sub larger smaller)).

(** Modelled from the spec: the componentwise [≥] used to stop the victim
    walk ("cumulative victim resource ≥ toPreempt"). *)
Definition StrictlyGreaterThanOrEquals (larger smaller : Resource) : bool :=
  bool_decide (map_Forall (λ _ v, 0 ≤ v) (Sub larger smaller)).

(** Modelled from the spec: [fits-in(A, Cap)], all A[k] ≤ Cap[k] for the
    keys k of A. *)
Definition FitIn (cap a : Resource) : bool :=
  bool_decide (map_Forall (λ k v, v ≤ get cap k) a).

(** Share of [total] taken by [used] in dimension [k], as an exact
    fraction; a dimension of zero capacity contributes the share 0. *)
Definition share (used total : Resource) (k : string) : Q :=
  (inject_Z (get used k) / inject_Z (get total k))%Q.

Definition Qmaximum (l : list Q) : Q :=
  foldr (λ x acc, if Qle_bool acc x then x else acc) 0%Q l.

(** Modelled from the spec: the fairness ratio of [used] against [total]
    is the maximum over k of used[k] / total[k] (the dominant share). *)
Definition dominantShare (used total : Resource) : Q :=
  Qmaximum (share used total <$> elements (dom used)).

Definition key_le (x y : string) : Prop := String.leb x y = true.

#[global] Instance key_le_dec : RelDecision key_le.
Proof. intros x y. unfold key_le. apply _. Defined.

Definition sortedKeys (a b : Resource) : list string :=
  merge_sort key_le (elements (dom a ∪ dom b)).

Fixpoint compShares (l r : list Q) : Z :=
  match l, r with
  | x :: l', y :: r' =>
      match (x ?= y)%Q with
      | Lt => -1
      | Gt => 1
      | Eq => compShares l' r'
      end
  | _, _ => 0
  end.

(** Modelled from the spec: the fairness comparison returns -1, 0 or +1 by
    comparing the dominant shares of two used/capacity pairs; equal
    dominant shares are separated by the per-dimension shares taken in key
    order. *)
Definition CompFairnessRatio (left leftTotal right rightTotal : Resource) : Z :=
  match (dominantShare left leftTotal ?= dominantShare right rightTotal)%Q with
  | Lt => -1
  | Gt => 1
  | Eq => compShares (share left leftTotal <$> sortedKeys left right)
                     (share right rightTotal <$> sortedKeys left right)
  end.

(** Modelled from the spec: comparison of two resources by their shares of
    one common total (the partition's resource). *)
Definition Comp (total left right : Resource) : Z :=
  CompFairnessRatio left total right total.

End resources.

Import resources.

(** ** Go strings and 32-bit integers *)

Module gostrings.

(** [strings.HasPrefix(s, prefix)]. *)
Definition HasPrefix (s pre : string) : bool := String.prefix pre s.

(** [strings.LastIndex(s, sep)] counted from position [i] of the
    enclosing string: the index of the last occurrence of [sep], or -1. *)
Fixpoint LastIndexFrom (i : Z) (s sep : string) : Z :=
  match s with
  | EmptyString => if String.prefix sep EmptyString then i else -1
  | String _ s' =>
      let r := LastIndexFrom (i + 1) s' sep in
      if 0 <=? r then r else if String.prefix sep s then i else -1
  end.

Definition LastIndex (s sep : string) : Z := LastIndexFrom 0 s sep.

(** The slice expression [s[n:]]. *)
Fixpoint sliceFrom (n : nat) (s : string) : string :=
  match n, s with
  | O, _ => s
  | S n', String _ s' => sliceFrom n' s'
  | S _, EmptyString => EmptyString
  end.

End gostrings.

Module int32.

Definition min_int : Z := -2147483648.
Definition max_int : Z := 2147483647.

Definition in_range (z : Z) : Prop := min_int ≤ z ≤ max_int.

(** Two's complement wrap-around of Go's [int32] arithmetic. *)
Definition wrap (z : Z) : Z := (z + 2147483648) `mod` 4294967296 - 2147483648.

Definition add (x y : Z) : Z := wrap (x + y).

End int32.

(** Modelled from the spec: the two path constants [configs.RootQueue] and
    [cache.DOT] are declared in another source file; the spec fixes
    queue paths as dot-separated and prefixed with [root]. *)
Definition RootQueue : string := "root".
Definition DOT : string := ".".

(** ** Allocation asks *)

(** The fields of [si.AllocationAsk] that the scheduler reads. *)
Record AllocationAsk := mkAllocationAsk {
  AllocationKey : string;
  ResourceAsk : Resource;
  MaxAllocations : Z;
  askApplicationId : string;
  askPartitionName : string;
}.

Record SchedulingAllocationAsk := mkSchedulingAllocationAsk {
  AskProto : AllocationAsk;
  AllocatedResource : Resource;
  PendingRepeatAsk : Z;            (* int32 *)
  ApplicationId : string;
  PartitionName : string;
  NormalizedPriority : Z;          (* int32 *)
  QueueName : string;
}.

Definition NewSchedulingAllocationAsk (ask : AllocationAsk) : SchedulingAllocationAsk :=
  {| AskProto := ask;
     AllocatedResource := ResourceAsk ask;
     PendingRepeatAsk := MaxAllocations ask;
     ApplicationId := askApplicationId ask;
     PartitionName := askPartitionName ask;
     NormalizedPriority := 0;
     QueueName := "" |}.

Definition setPendingRepeatAsk (v : Z) (m : SchedulingAllocationAsk) : SchedulingAllocationAsk :=
  {| AskProto := AskProto m;
     AllocatedResource := AllocatedResource m;
     PendingRepeatAsk := v;
     ApplicationId := ApplicationId m;
     PartitionName := PartitionName m;
     NormalizedPriority := NormalizedPriority m;
     QueueName := QueueName m |}.

(** [AddPendingAskRepeat]: the returned pair is the boolean result and the
    ask after the call.  The sum is an [int32] sum. *)
Definition AddPendingAskRepeat (m : SchedulingAllocationAsk) (delta : Z)
  : bool * SchedulingAllocationAsk :=
  if 0 <=? int32.add (PendingRepeatAsk m) delta
  then (true, setPendingRepeatAsk (int32.add (PendingRepeatAsk m) delta) m)
  else (false, m).

(** ** Scheduling queues *)

Inductive SortType := FairSortPolicy | FifoSortPolicy | MaxAvailableResources.

#[global] Instance SortType_eq_dec : EqDecision SortType.
Proof. solve_decision. Defined.

Module cache.

Inductive QueueState := Running | Draining | Stopped.

#[global] Instance QueueState_eq_dec : EqDecision QueueState.
Proof. solve_decision. Defined.

(** Modelled from the spec: [cache.QueueInfo], the cached queue object the
    scheduling queue links back to, is declared in another source file.
    The spec gives its attributes: fully-qualified path, managed flag,
    status, guaranteed resource, leaf or parent, properties, and children
    keyed by leaf name. *)
#[warnings="-register-all"]
Inductive QueueInfo := mkQueueInfo {
  QueuePath : string;
  Managed : bool;
  State : QueueState;
  IsLeaf : bool;
  GuaranteedResource : Resource;
  Properties : list (string * string);
  Children : list (string * QueueInfo);
}.

Definition GetQueuePath (qi : QueueInfo) : string := QueuePath qi.
Definition IsManaged (qi : QueueInfo) : bool := Managed qi.
Definition IsRunning (qi : QueueInfo) : bool := bool_decide (State qi = Running).
Definition IsDraining (qi : QueueInfo) : bool := bool_decide (State qi = Draining).
Definition IsStopped (qi : QueueInfo) : bool := bool_decide (State qi = Stopped).
Definition IsLeafQueue (qi : QueueInfo) : bool := IsLeaf qi.
Definition GetCopyOfChildren (qi : QueueInfo) : list (string * QueueInfo) := Children qi.

(** Modelled from the spec: [cache.AllocationInfo], declared in another
    source file; the fields are those the preemption code reads (uuid
    and queue name of the allocation proto, application id, resource). *)
Record AllocationInfo := mkAllocationInfo {
  Uuid : string;
  QueueName : string;
  ApplicationId : string;
  AllocatedResource : Resource;
}.

End cache.

(** Queues live in a store and refer to each other by address, as the Go
    objects do by pointer. *)
Abbreviation addr := positive.

Record SchedulingQueue := mkSchedulingQueue {
  Name : string;
  CachedQueueInfo : cache.QueueInfo;
  ProposingResource : Resource;
  PartitionResource : Resource;
  ApplicationSortType : SortType;
  QueueSortType : SortType;
  childrenQueues : gmap string addr;
  applications : gset string;      (* keys of the application map *)
  parent : option addr;
  allocatingResource : Resource;
  pendingResource : Resource;
}.

Abbreviation store := (gmap addr SchedulingQueue).

Definition setChildrenQueues (f : gmap string addr → gmap string addr)
    (sq : SchedulingQueue) : SchedulingQueue :=
  {| Name := Name sq; CachedQueueInfo := CachedQueueInfo sq;
     ProposingResource := ProposingResource sq;
     PartitionResource := PartitionResource sq;
     ApplicationSortType := ApplicationSortType sq;
     QueueSortType := QueueSortType sq;
     childrenQueues := f (childrenQueues sq);
     applications := applications sq; parent := parent sq;
     allocatingResource := allocatingResource sq;
     pendingResource := pendingResource sq |}.

Definition setPendingResource (f : Resource → Resource)
    (sq : SchedulingQueue) : SchedulingQueue :=
  {| Name := Name sq; CachedQueueInfo := CachedQueueInfo sq;
     ProposingResource := ProposingResource sq;
     PartitionResource := PartitionResource sq;
     ApplicationSortType := ApplicationSortType sq;
     QueueSortType := QueueSortType sq;
     childrenQueues := childrenQueues sq;
     applications := applications sq; parent := parent sq;
     allocatingResource := allocatingResource sq;
     pendingResource := f (pendingResource sq) |}.

(** [IncAllocatingResource] and [SetAllocatingResource] of a queue. *)
Definition SetAllocatingResource (newAlloc : Resource)
    (sq : SchedulingQueue) : SchedulingQueue :=
  {| Name := Name sq; CachedQueueInfo := CachedQueueInfo sq;
     ProposingResource := ProposingResource sq;
     PartitionResource := PartitionResource sq;
     ApplicationSortType := ApplicationSortType sq;
     QueueSortType := QueueSortType sq;
     childrenQueues := childrenQueues sq;
     applications := applications sq; parent := parent sq;
     allocatingResource := newAlloc;
     pendingResource := pendingResource sq |}.

Definition IncAllocatingResource (newAlloc : Resource)
    (sq : SchedulingQueue) : SchedulingQueue :=
  SetAllocatingResource (Add (allocatingResource sq) newAlloc) sq.

Definition isManaged (sq : SchedulingQueue) : bool := cache.IsManaged (CachedQueueInfo sq).
Definition isRunning (sq : SchedulingQueue) : bool := cache.IsRunning (CachedQueueInfo sq).
Definition isDraining (sq : SchedulingQueue) : bool := cache.IsDraining (CachedQueueInfo sq).
Definition isLeafQueue (sq : SchedulingQueue) : bool := cache.IsLeafQueue (CachedQueueInfo sq).
Definition isRoot (sq : SchedulingQueue) : bool := bool_decide (parent sq = None).

Section queues.

(** The property key [cache.ApplicationSortPolicy], a constant declared
    in another source file. *)
Variable ApplicationSortPolicy : string.

(** [updateSchedulingQueueProperties]: the application sort type the
    properties select (the queue sort type is always fair). *)
Definition updateSchedulingQueueProperties (prop : list (string * string)) : SortType :=
  foldl (λ acc kv,
           if bool_decide (kv.1 = ApplicationSortPolicy) && bool_decide (kv.2 = "fair")
           then FairSortPolicy else acc)
        FifoSortPolicy prop.

(** The key under which a new queue registers itself with its parent:
    [sq.Name[strings.LastIndex(sq.Name, cache.DOT)+1:]]. *)
Definition leafName (name : string) : string :=
  gostrings.sliceFrom (Z.to_nat (gostrings.LastIndex name DOT + 1)) name.

(** [NewSchedulingQueueInfo]: allocates the queue, registers it with its
    parent under its leaf name, then builds the children found in the
    cached queue.  Returns the address of the new queue and the store. *)
Fixpoint NewSchedulingQueueInfo (cacheQueueInfo : cache.QueueInfo) (parent : option addr)
    (st : store) : addr * store :=
  let a := fresh (dom st) in
  let sq := {| Name := cache.GetQueuePath cacheQueueInfo;
               CachedQueueInfo := cacheQueueInfo;
               ProposingResource := NewResource;
               PartitionResource := Zero;
               ApplicationSortType :=
                 updateSchedulingQueueProperties (cache.Properties cacheQueueInfo);
               QueueSortType := FairSortPolicy;
               childrenQueues := ∅;
               applications := ∅;
               parent := parent;
               allocatingResource := Zero;
               pendingResource := NewResource |} in
  let st := <[a := sq]> st in
  let st :=
    match parent with
    | Some p => alter (setChildrenQueues <[leafName (Name sq) := a]>) p st
    | None => st
    end in
  let st :=
    (fix children (l : list (string * cache.QueueInfo)) (st : store) : store :=
       match l with
       | [] => st
       | (childName, childQueue) :: l' =>
           let '(c, st') := NewSchedulingQueueInfo childQueue (Some a) st in
           children l' (alter (setChildrenQueues <[childName := c]>) a st')
       end) (cache.GetCopyOfChildren cacheQueueInfo) st in
  (a, st).

End queues.

(** A Go call either returns or panics (here: a nil pointer dereference). *)
Inductive outcome (A : Type) :=
| Returns (x : A)
| Panics.
Arguments Returns {A} x.
Arguments Panics {A}.

(** [IncPendingResource]: the parent is updated first, then the queue
    itself.  The recursion follows the parent links; [fuel] bounds its
    depth, and [None] is returned only when the fuel runs out or a link
    leaves the store. *)
Fixpoint IncPendingResource (fuel : nat) (st : store) (sq : addr) (delta : Resource)
    : option store :=
  match fuel with
  | O => None
  | S fuel' =>
      q ← st !! sq;
      st1 ← match parent q with
            | Some p => IncPendingResource fuel' st p delta
            | None => Some st
            end;
      Some (alter (setPendingResource (λ r, Add r delta)) sq st1)
  end.

(** [DecPendingResource]: as above with [resources.Sub]; nothing checks
    the sign of the result. *)
Fixpoint DecPendingResource (fuel : nat) (st : store) (sq : addr) (delta : Resource)
    : option store :=
  match fuel with
  | O => None
  | S fuel' =>
      q ← st !! sq;
      st1 ← match parent q with
            | Some p => DecPendingResource fuel' st p delta
            | None => Some st
            end;
      Some (alter (setPendingResource (λ r, Sub r delta)) sq st1)
  end.

(** The queue at [sq] followed by its ancestors up to the root, read off
    the parent links with the same bound on the depth. *)
Fixpoint ancestors (fuel : nat) (st : store) (sq : addr) : option (list addr) :=
  match fuel with
  | O => None
  | S fuel' =>
      q ← st !! sq;
      match parent q with
      | Some p => l ← ancestors fuel' st p; Some (sq :: l)
      | None => Some [sq]
      end
  end.

(** The shape the two updates above share. *)
Fixpoint updatePending (f : Resource → Resource) (fuel : nat) (st : store)
    (sq : addr) : option store :=
  match fuel with
  | O => None
  | S fuel' =>
      q ← st !! sq;
      st1 ← match parent q with
            | Some p => updatePending f fuel' st p
            | None => Some st
            end;
      Some (alter (setPendingResource f) sq st1)
  end.

(** A sequence of calls of the two updates. *)
Inductive pendingCall :=
| CallInc (sq : addr) (delta : Resource)
| CallDec (sq : addr) (delta : Resource).

Fixpoint applyCalls (fuel : nat) (st : store) (calls : list pendingCall)
    : option store :=
  match calls with
  | [] => Some st
  | CallInc sq delta :: rest =>
      st' ← IncPendingResource fuel st sq delta; applyCalls fuel st' rest
  | CallDec sq delta :: rest =>
      st' ← DecPendingResource fuel st sq delta; applyCalls fuel st' rest
  end.

(** [removeChildQueue]: deletes the key [name] from the children map. *)
Definition removeChildQueue (st : store) (sq : addr) (name : string) : store :=
  alter (setChildrenQueues (delete name)) sq st.

(** [RemoveQueue]: the result and the store after the call.  With a nil
    parent the call of [removeChildQueue] dereferences nil. *)
Definition RemoveQueue (st : store) (sq : addr) : outcome (bool * store) :=
  match st !! sq with
  | None => Panics
  | Some q =>
      if isManaged q && isRunning q then Returns (false, st)
      else if bool_decide (0 < size (childrenQueues q))%nat
              || bool_decide (0 < size (applications q))%nat
      then Returns (false, st)
      else match parent q with
           | None => Panics
           | Some p => Returns (true, removeChildQueue st p (Name q))
           end
  end.


(** ** Sorting *)

Section SliceStable.

Context {A : Type} (less : A → A → bool).

(** One pass of the inner loop of Go's insertion sort,
    [for j := i; j > a && less(j, j-1); j-- { swap(j, j-1) }]: the element
    [x] travels left while it is less than its left neighbour.  The part
    already sorted is kept reversed, its last element first. *)
Fixpoint insertBack (x : A) (revPrefix : list A) : list A :=
  match revPrefix with
  | [] => [x]
  | y :: rest => if less x y then y :: insertBack x rest else x :: revPrefix
  end.

(** [sort.SliceStable] of the Go library, which sorts a slice of at most
    20 elements (one block) by straight insertion. *)
Definition SliceStable (data : list A) : list A :=
  reverse (foldl (λ revPrefix x, insertBack x revPrefix) [] data).

End SliceStable.

(** The comparison closure of [SortQueue], with [l = queues[i]] and
    [r = queues[j]]. *)
Definition lessFairQueue (l r : SchedulingQueue) : bool :=
  CompFairnessRatio (ProposingResource l)
                    (cache.GuaranteedResource (CachedQueueInfo l))
                    (ProposingResource r)
                    (cache.GuaranteedResource (CachedQueueInfo l)) <? 0.

Definition SortQueue (queues : list SchedulingQueue) (sortType : SortType)
    : list SchedulingQueue :=
  if decide (sortType = FairSortPolicy)
  then SliceStable lessFairQueue queues
  else queues.

(** The fairness ratio the sort policy is described with: a queue's own
    proposing resource against its own guaranteed resource. *)
Definition ownRatioComp (l r : SchedulingQueue) : Z :=
  CompFairnessRatio (ProposingResource l)
                    (cache.GuaranteedResource (CachedQueueInfo l))
                    (ProposingResource r)
                    (cache.GuaranteedResource (CachedQueueInfo r)).

(** ** Partition manager *)

Module manager.

Definition cleanerInterval : Z := 10000.
Definition Millisecond : Z := 1000000.

(** [PartitionManager]; the links to the partition and cluster contexts
    play no part in the loop control and are left out. *)
Record PartitionManager := mkPartitionManager {
  stop : bool;
  interval : Z;
}.

(** The body of [Stop], a method with a value receiver: it assigns to the
    receiver, which is the callee's own copy of the struct.  The result is
    that copy when the body ends. *)
Definition Stop (manager : PartitionManager) : PartitionManager :=
  {| stop := true; interval := interval manager |}.

(** The goroutine running [Run]: its receiver (again a copy, taken when the
    goroutine is started), whether the loop is still running, and the
    number of completed calls of [cleanQueues]. *)
Record RunFrame := mkRunFrame {
  receiver : PartitionManager;
  looping : bool;
  cleanRuns : nat;
}.

(** Start of [Run] up to the loop. *)
Definition Run_enter (manager : PartitionManager) : RunFrame :=
  {| receiver :=
       if interval manager =? 0
       then {| stop := stop manager; interval := cleanerInterval * Millisecond |}
       else manager;
     looping := true;
     cleanRuns := 0 |}.

(** One iteration of the loop of [Run]: sleep, clean the queues, then
    leave the loop when the receiver's stop flag is set. *)
Definition Run_iterate (f : RunFrame) : RunFrame :=
  if looping f
  then {| receiver := receiver f;
          looping := negb (stop (receiver f));
          cleanRuns := S (cleanRuns f) |}
  else f.

(** The partition's manager as the rest of the scheduler sees it: the
    struct that [partition.partitionManager] points to, the goroutine
    started for it, and whether [remove] has been executed. *)
Record world := mkWorld {
  pointee : PartitionManager;
  run : RunFrame;
  removed : bool;
}.

(** [updateSchedulingPartitions], for a new partition: the manager is
    created with its zero-valued flag and [go partitionManager.Run()]
    copies the struct into the receiver of the new goroutine. *)
Definition spawn : world :=
  let m := {| stop := false; interval := 0 |} in
  {| pointee := m; run := Run_enter m; removed := false |}.

Inductive event :=
| CallStop       (* deleteSchedulingPartitions: partition.partitionManager.Stop() *)
| SetStopFlag    (* RemoveSchedulingPartitionsByRMId: partition.partitionManager.stop = true *)
| Tick.          (* the goroutine of Run completes one loop iteration *)

#[global] Instance event_eq_dec : EqDecision event.
Proof. solve_decision. Defined.

Definition step (w : world) (e : event) : world :=
  match e with
  | CallStop =>
      (* the callee works on a copy of [*partitionManager] *)
      let _receiverAtReturn := Stop (pointee w) in
      w
  | SetStopFlag =>
      {| pointee := {| stop := true; interval := interval (pointee w) |};
         run := run w; removed := removed w |}
  | Tick =>
      let f := Run_iterate (run w) in
      {| pointee := pointee w; run := f;
         (* after the loop, Run calls remove() *)
         removed := removed w || (looping (run w) && negb (looping f)) |}
  end.

Definition exec (w : world) (evs : list event) : world := foldl step w evs.

(** What holds of the manager of a partition from its creation on. *)
Definition unstoppable (w : world) : Prop :=
  stop (receiver (run w)) = false ∧ looping (run w) = true ∧ removed w = false.

End manager.

(** ** Placement: the fixed rule *)

Module placement.

Record UserGroup := mkUserGroup {
  User : string;
  Groups : list string;
}.

(** Modelled from the spec: [cache.ApplicationInfo] and
    [cache.PartitionInfo] are declared in another source file.  Of the
    application the rule reads its id and its user; of the partition it
    uses [get-queue(path)], which yields the queue or nil. *)
Record ApplicationInfo := mkApplicationInfo {
  ApplicationId : string;
  GetUser : UserGroup;
}.

Record PartitionInfo := mkPartitionInfo {
  queues : gmap string cache.QueueInfo;
}.

Definition GetQueue (info : PartitionInfo) (path : string) : option cache.QueueInfo :=
  queues info !! path.

(** A Go [error]: nil or an error carrying a message. *)
Abbreviation error := (option string).

(** The [rule] interface. *)
Record rule := mkRule {
  getName : string;
  placeApplication : ApplicationInfo → PartitionInfo → outcome (string * error);
}.

(** [fixedRule] with the fields of the embedded [basicRule]; the filter is
    represented by its [allowUser] method. *)
Record fixedRule := mkFixedRule {
  create : bool;
  parent : option rule;
  allowUser : UserGroup → bool;
  queue : string;
  qualified : bool;
}.

(** The parent name made fully qualified, as done before the leaf check. *)
Definition qualify (parentName : string) : string :=
  if negb (gostrings.HasPrefix parentName (RootQueue +:+ DOT))
  then RootQueue +:+ DOT +:+ parentName
  else parentName.

(** The tail of [placeApplication], from the lookup of the queue object. *)
Definition placeQueue (fr : fixedRule) (info : PartitionInfo) (queueName : string)
    : outcome (string * error) :=
  if negb (create fr) && bool_decide (GetQueue info queueName = None)
  then Returns (""%string, None)
  else Returns (queueName, None).

(** [fixedRule.placeApplication].  [IsLeafQueue] is called on the result of
    [GetQueue] without a nil check: on nil the call dereferences nil. *)
Definition fixed_placeApplication (fr : fixedRule) (app : ApplicationInfo)
    (info : PartitionInfo) : outcome (string * error) :=
  if negb (allowUser fr (GetUser app)) then Returns (""%string, None)
  else if negb (qualified fr) then
    match parent fr with
    | Some p =>
        match placeApplication p app info with
        | Panics => Panics
        | Returns (_, Some err) => Returns (""%string, Some err)
        | Returns (parentName, None) =>
            if bool_decide (parentName = ""%string) then Returns (""%string, None)
            else
              let parentName := qualify parentName in
              match GetQueue info parentName with
              | None => Panics
              | Some q =>
                  if cache.IsLeafQueue q
                  then Returns (""%string,
                                Some ("parent rule returned a leaf queue: " +:+ parentName))
                  else
                    let parentName :=
                      if bool_decide (parentName = ""%string) then RootQueue
                      else parentName in
                    placeQueue fr info (parentName +:+ DOT +:+ queue fr)
              end
        end
    | None => placeQueue fr info (RootQueue +:+ DOT +:+ queue fr)
    end
  else placeQueue fr info (queue fr).

(** A fixed rule seen through the [rule] interface, so that it can serve
    as the parent of another rule. *)
Definition asRule (fr : fixedRule) : rule :=
  {| getName := "fixed"; placeApplication := fixed_placeApplication fr |}.

End placement.

(** ** Preemption *)

Module preemption.

(** Modelled from the spec: the resource block of a preemption queue
    context, declared in another source file.  The spec names the queue's
    max, its preemptable resource (allocated - guaranteed, not below zero)
    and the resource marked as preempted. *)
Record preemptionQueueResources := mkPreemptionQueueResources {
  max : Resource;
  preemptable : Resource;
  markedPreemptedResource : Resource;
}.

(** [preemptionQueueContext], with the fields the preemption code uses
    (the type is declared in another source file); the parent link is
    followed up to nil. *)
#[warnings="-register-all"]
Inductive preemptionQueueContext := mkPreemptionQueueContext {
  queuePath : string;
  resources : preemptionQueueResources;
  schedulingQueue : SchedulingQueue;
  parent : option preemptionQueueContext;
}.

Definition GetAllocatingResource (sq : SchedulingQueue) : Resource :=
  allocatingResource sq.

(** [preemptionPartitionContext], likewise: the partition total and the
    leaf queues by queue name. *)
Record preemptionPartitionContext := mkPreemptionPartitionContext {
  partitionTotalResource : Resource;
  leafQueues : gmap string preemptionQueueContext;
}.

(** Modelled from the spec: [SchedulingNode], declared in another source
    file.  The spec gives a node its id, partition, allocating, preempting
    and available resource and its allocations; [GetAllAllocations] is the
    list of the allocations of the node's [NodeInfo], in the order the loop
    meets them. *)
Record SchedulingNode := mkSchedulingNode {
  NodeId : string;
  Partition : string;
  AllocatingResource : Resource;
  PreemptingResource : Resource;
  CachedAvailableResource : Resource;
  GetAllAllocations : list cache.AllocationInfo;
}.

Record singleNodePreemptResult := mkSingleNodePreemptResult {
  node : SchedulingNode;
  toReleaseAllocations : gmap string cache.AllocationInfo;
  totalReleasedResource : Resource;
}.

(** The loop of [headroomShortageUpdate] from [cur] up to the root. *)
Fixpoint headroomShortageWalk (allocationResource : Resource)
    (cur : preemptionQueueContext) (positiveContribution : bool)
    (queueHeadroomShortages : gmap string Resource) : bool * gmap string Resource :=
  let '(positiveContribution, queueHeadroomShortages) :=
    match queueHeadroomShortages !! queuePath cur with
    | Some headroomShortage =>
        let newHeadroomShortage :=
          SubEliminateNegative headroomShortage allocationResource in
        if StrictlyGreaterThan headroomShortage newHeadroomShortage
        then (true,
              if StrictlyGreaterThanZero newHeadroomShortage
              then <[queuePath cur := newHeadroomShortage]> queueHeadroomShortages
              else delete (queuePath cur) queueHeadroomShortages)
        else (positiveContribution, queueHeadroomShortages)
    | None => (positiveContribution, queueHeadroomShortages)
    end in
  match parent cur with
  | Some p =>
      headroomShortageWalk allocationResource p positiveContribution
                           queueHeadroomShortages
  | None => (positiveContribution, queueHeadroomShortages)
  end.

(** [headroomShortageUpdate]: the boolean result and the shortage map
    after the call. *)
Definition headroomShortageUpdate (preemptor preemptee : preemptionQueueContext)
    (allocationResource : Resource) (queueHeadroomShortages : gmap string Resource)
    : bool * gmap string Resource :=
  if bool_decide (size queueHeadroomShortages = 0)%nat
  then (false, queueHeadroomShortages)
  else headroomShortageWalk allocationResource preemptee false queueHeadroomShortages.

(** Headroom of one queue: max - allocating + marked-preempted. *)
Definition headroomOf (cur : preemptionQueueContext) : Resource :=
  Add (Sub (max (resources cur)) (GetAllocatingResource (schedulingQueue cur)))
      (markedPreemptedResource (resources cur)).

(** The loop of [initHeadroomShortages]. *)
Fixpoint headroomShortagesFrom (allocatedResource : Resource)
    (cur : preemptionQueueContext) (headroomShortages : gmap string Resource)
    : gmap string Resource :=
  let headroom := headroomOf cur in
  let headroomShortage := SubEliminateNegative allocatedResource headroom in
  let headroomShortages :=
    if StrictlyGreaterThanZero headroomShortage
    then <[queuePath cur := headroomShortage]> headroomShortages
    else headroomShortages in
  match parent cur with
  | Some p => headroomShortagesFrom allocatedResource p headroomShortages
  | None => headroomShortages
  end.

Definition initHeadroomShortages (preemptorQueue : preemptionQueueContext)
    (allocatedResource : Resource) : gmap string Resource :=
  headroomShortagesFrom allocatedResource preemptorQueue ∅.

(** The contexts a walk along the parent links visits, nearest first. *)
Fixpoint ancestry (cur : preemptionQueueContext) : list preemptionQueueContext :=
  cur :: match parent cur with
         | Some p => ancestry p
         | None => []
         end.

(** Induction along the parent links of a context. *)
Fixpoint context_ind (P : preemptionQueueContext → Prop)
    (Hroot : ∀ c, parent c = None → P c)
    (Hstep : ∀ c p, parent c = Some p → P p → P c)
    (c : preemptionQueueContext) : P c :=
  match c with
  | mkPreemptionQueueContext qp r sq None =>
      Hroot (mkPreemptionQueueContext qp r sq None) eq_refl
  | mkPreemptionQueueContext qp r sq (Some p) =>
      Hstep (mkPreemptionQueueContext qp r sq (Some p)) p eq_refl
            (context_ind P Hroot Hstep p)
  end.

(** The shortage of one queue for an ask: ask - headroom, cut off at zero. *)
Definition shortageOf (ask : Resource) (c : preemptionQueueContext) : Resource :=
  SubEliminateNegative ask (headroomOf c).

Definition setResources (r : preemptionQueueResources)
    (c : preemptionQueueContext) : preemptionQueueContext :=
  {| queuePath := queuePath c; resources := r;
     schedulingQueue := schedulingQueue c; parent := parent c |}.

(** [IncAllocatingResource] on the scheduling queue of a context. *)
Definition IncAllocatingResourceOf (newAlloc : Resource)
    (c : preemptionQueueContext) : preemptionQueueContext :=
  {| queuePath := queuePath c; resources := resources c;
     schedulingQueue := IncAllocatingResource newAlloc (schedulingQueue c);
     parent := parent c |}.

Definition setNodeResources (allocating preempting : Resource)
    (n : SchedulingNode) : SchedulingNode :=
  {| NodeId := NodeId n; Partition := Partition n;
     AllocatingResource := allocating;
     PreemptingResource := preempting;
     CachedAvailableResource := CachedAvailableResource n;
     GetAllAllocations := GetAllAllocations n |}.

(** A release attached to an allocation proposal
    ([commonevents.ReleaseAllocation]; the free-text message is left out). *)
Inductive TerminationType := STOPPED_BY_RM | TIMEOUT | PREEMPTED_BY_SCHEDULER.

Record ReleaseAllocation := mkReleaseAllocation {
  releaseUuid : string;
  releaseApplicationId : string;
  releasePartitionName : string;
  ReleaseType : TerminationType;
}.

Record SchedulingAllocation := mkSchedulingAllocation {
  SchedulingAsk : SchedulingAllocationAsk;
  allocationNodeId : string;
  Releases : list ReleaseAllocation;
}.

Definition NewSchedulingAllocation (ask : SchedulingAllocationAsk) (nodeId : string)
    : SchedulingAllocation :=
  {| SchedulingAsk := ask; allocationNodeId := nodeId; Releases := [] |}.

Section surgical.

(** [SchedulingNode.CheckAndAllocateResource(delta, preemptionPhase)] is
    declared in another source file: it answers whether the node can
    take [delta] and may update the node. *)
Variable CheckAndAllocateResource :
  SchedulingNode → Resource → bool → bool * SchedulingNode.

(** The amount to free on a node:
    [max(0, allocating + asked - preempting - available)]. *)
Definition resourceToPreemptOf (node : SchedulingNode)
    (candidate : SchedulingAllocationAsk) : Resource :=
  let resourceToPreempt :=
    Add (AllocatingResource node) (AllocatedResource candidate) in
  let resourceToPreempt := Sub resourceToPreempt (PreemptingResource node) in
  let resourceToPreempt := Sub resourceToPreempt (CachedAvailableResource node) in
  ComponentWiseMax resourceToPreempt Zero.

(** The two tests that make the loop skip an allocation of a known leaf
    queue: the queue has nothing preemptable, or preempting for this ask
    would not lower its preemptable share. *)
Definition skipsQueue (ctx : preemptionPartitionContext)
    (candidate : SchedulingAllocationAsk) (preemptQueue : preemptionQueueContext) : bool :=
  if Comp (partitionTotalResource ctx) (preemptable (resources preemptQueue)) Zero <=? 0
  then true
  else
    let postPreemption :=
      SubEliminateNegative (preemptable (resources preemptQueue))
                           (AllocatedResource candidate) in
    0 <=? Comp (partitionTotalResource ctx) postPreemption
               (preemptable (resources preemptQueue)).

(** The allocations of a list that the loop below does not skip, and the
    release set and released total it has built after taking a list of
    them. *)
Definition isVictim (ctx : preemptionPartitionContext)
    (candidate : SchedulingAllocationAsk) (alloc : cache.AllocationInfo) : bool :=
  match leafQueues ctx !! cache.QueueName alloc with
  | None => false
  | Some preemptQueue => negb (skipsQueue ctx candidate preemptQueue)
  end.

Definition victimsOf (ctx : preemptionPartitionContext)
    (candidate : SchedulingAllocationAsk) (allocs : list cache.AllocationInfo)
    : list cache.AllocationInfo :=
  List.filter (isVictim ctx candidate) allocs.

Definition releasedTotal (start : Resource) (victims : list cache.AllocationInfo)
    : Resource :=
  foldl (λ total alloc, Add total (cache.AllocatedResource alloc)) start victims.

Definition releasedSet (start : gmap string cache.AllocationInfo)
    (victims : list cache.AllocationInfo) : gmap string cache.AllocationInfo :=
  foldl (λ toRelease alloc, <[cache.Uuid alloc := alloc]> toRelease) start victims.

(** The loop of [trySurgicalPreemptionOnNode] over the allocations of the
    node.  The result of [headroomShortageUpdate] is not used; its effect
    on the shortage map is kept. *)
Fixpoint surgicalWalk (ctx : preemptionPartitionContext)
    (preemptorQueue : preemptionQueueContext) (node : SchedulingNode)
    (candidate : SchedulingAllocationAsk) (resourceToPreempt : Resource)
    (allocs : list cache.AllocationInfo)
    (toReleaseAllocations : gmap string cache.AllocationInfo)
    (totalReleasedResource : Resource)
    (headroomShortages : gmap string Resource)
    : option singleNodePreemptResult * gmap string Resource :=
  match allocs with
  | [] => (None, headroomShortages)
  | alloc :: rest =>
      match leafQueues ctx !! cache.QueueName alloc with
      | None =>
          surgicalWalk ctx preemptorQueue node candidate resourceToPreempt rest
                       toReleaseAllocations totalReleasedResource headroomShortages
      | Some preemptQueue =>
          if skipsQueue ctx candidate preemptQueue
          then surgicalWalk ctx preemptorQueue node candidate resourceToPreempt rest
                            toReleaseAllocations totalReleasedResource headroomShortages
          else
            let '(_, headroomShortages) :=
              headroomShortageUpdate preemptorQueue preemptQueue
                                     (cache.AllocatedResource alloc) headroomShortages in
            let toReleaseAllocations :=
              <[cache.Uuid alloc := alloc]> toReleaseAllocations in
            let totalReleasedResource :=
              Add totalReleasedResource (cache.AllocatedResource alloc) in
            if StrictlyGreaterThanOrEquals totalReleasedResource resourceToPreempt
            then (Some {| node := node;
                          toReleaseAllocations := toReleaseAllocations;
                          totalReleasedResource := totalReleasedResource |},
                  headroomShortages)
            else surgicalWalk ctx preemptorQueue node candidate resourceToPreempt rest
                              toReleaseAllocations totalReleasedResource headroomShortages
      end
  end.

(** [trySurgicalPreemptionOnNode]: the result (nil is [None]) and the
    shortage map after the call. *)
Definition trySurgicalPreemptionOnNode (ctx : preemptionPartitionContext)
    (preemptorQueue : preemptionQueueContext) (node : SchedulingNode)
    (candidate : SchedulingAllocationAsk) (headroomShortages : gmap string Resource)
    : option singleNodePreemptResult * gmap string Resource :=
  let resourceToPreempt := resourceToPreemptOf node candidate in
  let '(fits, node) :=
    CheckAndAllocateResource node (AllocatedResource candidate) true in
  if fits
  then (Some {| node := node; toReleaseAllocations := ∅;
                totalReleasedResource := Zero |},
        headroomShortages)
  else surgicalWalk ctx preemptorQueue node candidate resourceToPreempt
                    (GetAllAllocations node) ∅ NewResource headroomShortages.

(** The loop over the nodes in [crossQueuePreemptionAllocate]: the first
    result that is not nil ends it. *)
Fixpoint firstPreemptResult (ctx : preemptionPartitionContext)
    (preemptorQueue : preemptionQueueContext) (nodes : list SchedulingNode)
    (candidate : SchedulingAllocationAsk) (headroomShortages : gmap string Resource)
    : option singleNodePreemptResult * gmap string Resource :=
  match nodes with
  | [] => (None, headroomShortages)
  | node :: rest =>
      match trySurgicalPreemptionOnNode ctx preemptorQueue node candidate
                                        headroomShortages with
      | (Some preemptResult, headroomShortages) =>
          (Some preemptResult, headroomShortages)
      | (None, headroomShortages) =>
          firstPreemptResult ctx preemptorQueue rest candidate headroomShortages
      end
  end.

(** The bookkeeping of [createPreemptionAndAllocationProposal] for one
    released allocation, on the leaf queue it belongs to. *)
Definition markPreempted (alloc : cache.AllocationInfo)
    (preemptQueue : preemptionQueueContext) : preemptionQueueContext :=
  setResources
    {| max := max (resources preemptQueue);
       preemptable :=
         SubEliminateNegative (preemptable (resources preemptQueue))
                              (cache.AllocatedResource alloc);
       markedPreemptedResource :=
         Add (markedPreemptedResource (resources preemptQueue))
             (cache.AllocatedResource alloc) |}
    preemptQueue.

(** [createPreemptionAndAllocationProposal] for the single result that
    [crossQueuePreemptionAllocate] passes: the proposal, the partition
    context and the node after the call. *)
Definition createPreemptionAndAllocationProposal (ctx : preemptionPartitionContext)
    (nodeToAllocate : SchedulingNode) (candidate : SchedulingAllocationAsk)
    (pr : singleNodePreemptResult)
    : SchedulingAllocation * preemptionPartitionContext * SchedulingNode :=
  let allocation := NewSchedulingAllocation candidate (NodeId nodeToAllocate) in
  let victims := map_to_list (toReleaseAllocations pr) in
  let releases :=
    (λ ua : string * cache.AllocationInfo,
       {| releaseUuid := ua.1;
          releaseApplicationId := cache.ApplicationId ua.2;
          releasePartitionName := Partition nodeToAllocate;
          ReleaseType := PREEMPTED_BY_SCHEDULER |}) <$> victims in
  let leaves :=
    foldl (λ leaves (ua : string * cache.AllocationInfo),
             alter (markPreempted ua.2) (cache.QueueName ua.2) leaves)
          (leafQueues ctx) victims in
  let nodeAfter :=
    setNodeResources
      (Add (AllocatingResource nodeToAllocate) (AllocatedResource candidate))
      (Add (PreemptingResource nodeToAllocate) (totalReleasedResource pr))
      nodeToAllocate in
  ({| SchedulingAsk := SchedulingAsk allocation;
      allocationNodeId := allocationNodeId allocation;
      Releases := releases |},
   {| partitionTotalResource := partitionTotalResource ctx; leafQueues := leaves |},
   nodeAfter).

(** [crossQueuePreemptionAllocate]: the proposal, or [None] for nil. *)
Definition crossQueuePreemptionAllocate (preemptionPartitionContext : option preemptionPartitionContext)
    (nodes : list SchedulingNode) (candidate : SchedulingAllocationAsk)
    : option SchedulingAllocation :=
  match preemptionPartitionContext with
  | None => None
  | Some ctx =>
      match leafQueues ctx !! QueueName candidate with
      | None => None
      | Some preemptorQueue =>
          let headroomShortages :=
            initHeadroomShortages preemptorQueue (AllocatedResource candidate) in
          match firstPreemptResult ctx preemptorQueue nodes candidate
                                   headroomShortages with
          | (None, _) => None
          | (Some preemptResult, _) =>
              let ctx :=
                {| partitionTotalResource := partitionTotalResource ctx;
                   leafQueues :=
                     alter (IncAllocatingResourceOf (AllocatedResource candidate))
                           (QueueName candidate) (leafQueues ctx) |} in
              Some (createPreemptionAndAllocationProposal
                      ctx (node preemptResult) candidate preemptResult).1.1
          end
      end
  end.

End surgical.

End preemption.

(** ** Crediting one shortage entry *)

(** What [headroomShortageUpdate] makes of the entry of one queue on its
    walk, and whether it counts the entry as a contribution. *)
Definition credited (r : Resource) (entry : option Resource) : option Resource :=
  match entry with
  | Some s =>
      if StrictlyGreaterThan s (SubEliminateNegative s r)
      then if StrictlyGreaterThanZero (SubEliminateNegative s r)
           then Some (SubEliminateNegative s r) else None
      else Some s
  | None => None
  end.

Definition creditable (r : Resource) (entry : option Resource) : bool :=
  match entry with
  | Some s => StrictlyGreaterThan s (SubEliminateNegative s r)
  | None => false
  end.

(** ** Further operations on asks, applications and queues *)

(** A run of calls of [AddPendingAskRepeat] on one ask, whatever each
    call returns. *)
Definition addRepeats (m : SchedulingAllocationAsk) (deltas : list Z)
    : SchedulingAllocationAsk :=
  foldl (λ m delta, (AddPendingAskRepeat m delta).2) m deltas.

Module cacheapp.

(** Modelled from the spec: [cache.ApplicationInfo], declared in another
    source file; the scheduler reads the application id and the submission
    timestamp. *)
Record ApplicationInfo := mkApplicationInfo {
  ApplicationId : string;
  SubmissionTime : Z;              (* int64 *)
}.

End cacheapp.

Module application.

(** [SchedulingApplication].  Its [Requests] object, declared in another
    source file, is represented by what [Requests.GetPendingResource()]
    returns. *)
Record SchedulingApplication := mkSchedulingApplication {
  ApplicationInfo : cacheapp.ApplicationInfo;
  Requests : Resource;
  MayAllocatedResource : Resource;
  queue : option addr;
}.

Definition NewSchedulingApplication (appInfo : cacheapp.ApplicationInfo)
    : SchedulingApplication :=
  {| ApplicationInfo := appInfo; Requests := NewResource;
     MayAllocatedResource := Zero; queue := None |}.

End application.

(** A comparison closure of the form "the key of l is smaller than the
    key of r", the form of the FIFO comparison below. *)
Definition lessByKey {A : Type} (key : A → Z) (l r : A) : bool := key l <? key r.

(** The two comparison closures of [SortApplications]. *)
Definition lessFairApplication (globalResource : Resource)
    (l r : application.SchedulingApplication) : bool :=
  CompFairnessRatio (application.MayAllocatedResource l) globalResource
                    (application.MayAllocatedResource r) globalResource <? 0.

Definition lessFifoApplication (l r : application.SchedulingApplication) : bool :=
  cacheapp.SubmissionTime (application.ApplicationInfo l)
  <? cacheapp.SubmissionTime (application.ApplicationInfo r).

Definition SortApplications (queues : list application.SchedulingApplication)
    (sortType : SortType) (globalResource : Resource)
    : list application.SchedulingApplication :=
  if decide (sortType = FairSortPolicy)
  then SliceStable (lessFairApplication globalResource) queues
  else if decide (sortType = FifoSortPolicy)
  then SliceStable lessFifoApplication queues
  else queues.

Section nodes.

(** [resources.CompFairnessRatioAssumesUnitPartition], declared in another
    source file. *)
Variable CompFairnessRatioAssumesUnitPartition : Resource → Resource → Z.

(** The comparison closure of [SortNodes]: descending available resource. *)
Definition lessNode (l r : preemption.SchedulingNode) : bool :=
  0 <? CompFairnessRatioAssumesUnitPartition
         (preemption.CachedAvailableResource l)
         (preemption.CachedAvailableResource r).

Definition SortNodes (nodes : list preemption.SchedulingNode) (sortType : SortType)
    : list preemption.SchedulingNode :=
  if decide (sortType = MaxAvailableResources)
  then SliceStable lessNode nodes
  else nodes.

End nodes.

(** The loop of [NewSchedulingQueueInfo] over the cached children, with
    the construction of one child passed in: each child is built below
    the queue at [a] and entered into the children of [a] under its name
    in the cache. *)
Fixpoint registerChildren
    (build : cache.QueueInfo → option addr → store → addr * store)
    (a : addr) (l : list (string * cache.QueueInfo)) (st : store) : store :=
  match l with
  | [] => st
  | (childName, childQueue) :: l' =>
      let '(c, st') := build childQueue (Some a) st in
      registerChildren build a l'
        (alter (setChildrenQueues <[childName := c]>) a st')
  end.

(** What building a queue may do to the queues that exist: nothing, but
    for the children of the parent it is built under. *)
Definition built (par : option addr) (st st' : store) : Prop :=
  ∀ b q, st !! b = Some q →
    ∃ q', st' !! b = Some q'
          ∧ q' = setChildrenQueues (λ _, childrenQueues q') q
          ∧ (par ≠ Some b → q' = q).

(** What one call of [NewSchedulingQueueInfo] does, for a parent that is
    in the store. *)
Definition buildsWell (key : string) (cq : cache.QueueInfo) : Prop :=
  ∀ par (st : store),
    (∀ p, par = Some p → is_Some (st !! p)) →
    let a := (NewSchedulingQueueInfo key cq par st).1 in
    let st' := (NewSchedulingQueueInfo key cq par st).2 in
    st !! a = None
    ∧ (∃ children,
         st' !! a
         = Some {| Name := cache.GetQueuePath cq;
                   CachedQueueInfo := cq;
                   ProposingResource := NewResource;
                   PartitionResource := Zero;
                   ApplicationSortType :=
                     updateSchedulingQueueProperties key (cache.Properties cq);
                   QueueSortType := FairSortPolicy;
                   childrenQueues := children;
                   applications := ∅;
                   parent := par;
                   allocatingResource := Zero;
                   pendingResource := NewResource |})
    ∧ (∀ p pq, par = Some p → st !! p = Some pq →
         st' !! p
         = Some (setChildrenQueues <[leafName (cache.GetQueuePath cq) := a]> pq))
    ∧ built par st st'.

(** A string without the separator [cache.DOT]. *)
Fixpoint hasNoDot (s : string) : bool :=
  match s with
  | EmptyString => true
  | String c s' => if Ascii.ascii_dec "."%char c then false else hasNoDot s'
  end.

(** Induction over a cached queue and the cached queues below it. *)
Fixpoint QueueInfo_tree_ind (P : cache.QueueInfo → Prop)
    (step : ∀ qi, Forall (λ nc, P nc.2) (cache.Children qi) → P qi)
    (qi : cache.QueueInfo) : P qi :=
  match qi with
  | cache.mkQueueInfo path managed state leaf guaranteed props children =>
      step (cache.mkQueueInfo path managed state leaf guaranteed props children)
        ((fix below (l : list (string * cache.QueueInfo))
            : Forall (λ nc, P nc.2) l :=
            match l with
            | [] => @List.Forall_nil _ (λ nc, P nc.2)
            | nc :: l' =>
                @List.Forall_cons _ (λ nc, P nc.2) nc l'
                  (QueueInfo_tree_ind P step nc.2) (below l')
            end) children)
  end.

(** Modelled from the spec: [is-zero], every quantity is zero. *)
Definition IsZero (r : Resource) : bool :=
  bool_decide (map_Forall (λ _ v, v = 0) r).

Definition setApplications (f : gset string → gset string)
    (sq : SchedulingQueue) : SchedulingQueue :=
  {| Name := Name sq; CachedQueueInfo := CachedQueueInfo sq;
     ProposingResource := ProposingResource sq;
     PartitionResource := PartitionResource sq;
     ApplicationSortType := ApplicationSortType sq;
     QueueSortType := QueueSortType sq;
     childrenQueues := childrenQueues sq;
     applications := f (applications sq); parent := parent sq;
     allocatingResource := allocatingResource sq;
     pendingResource := pendingResource sq |}.

(** [AddSchedulingApplication]: the application is entered under its id. *)
Definition AddSchedulingApplication (st : store) (sq : addr)
    (app : application.SchedulingApplication) : store :=
  alter (setApplications
           (λ apps, {[cacheapp.ApplicationId (application.ApplicationInfo app)]} ∪ apps))
        sq st.

(** [RemoveSchedulingApplication].  A pending resource that is not zero is
    subtracted from the queue itself and then, through
    [sq.parent.DecPendingResource], from its ancestors; with a nil parent
    that call dereferences nil.  [None] is returned only when the fuel of
    the walk up the parent links runs out. *)
Definition RemoveSchedulingApplication (fuel : nat) (st : store) (sq : addr)
    (app : application.SchedulingApplication) : option (outcome store) :=
  let appId := cacheapp.ApplicationId (application.ApplicationInfo app) in
  match st !! sq with
  | None => Some Panics
  | Some q =>
      let totalPending := application.Requests app in
      if negb (IsZero totalPending)
      then
        let st1 := alter (setPendingResource (λ r, Sub r totalPending)) sq st in
        match parent q with
        | None => Some Panics
        | Some p =>
            st2 ← DecPendingResource fuel st1 p totalPending;
            Some (Returns (alter (setApplications (λ apps, apps ∖ {[appId]})) sq st2))
        end
      else Some (Returns (alter (setApplications (λ apps, apps ∖ {[appId]})) sq st))
  end.

(** * Sample data *)

Module samples.

(** An ask with a given number of pending repeats. *)
Definition askWith (pending : Z) : SchedulingAllocationAsk :=
  NewSchedulingAllocationAsk
    {| AllocationKey := "alloc-1"; ResourceAsk := {[ "memory"%string := 50 ]};
       MaxAllocations := pending; askApplicationId := "app-1";
       askPartitionName := "default" |}.

Definition mem (n : Z) : Resource := {[ "memory"%string := n ]}.

Definition queueNamed (path : string) (managed : bool) (allocating : Resource)
    : SchedulingQueue :=
  {| Name := path;
     CachedQueueInfo := cache.mkQueueInfo path managed cache.Running true ∅ [] [];
     ProposingResource := ∅; PartitionResource := ∅;
     ApplicationSortType := FifoSortPolicy; QueueSortType := FairSortPolicy;
     childrenQueues := ∅; applications := ∅; parent := None;
     allocatingResource := allocating; pendingResource := ∅ |}.

(** A partition of 1000 memory: the root with 100 of headroom, a queue
    [root.low] running 100 over its guarantee, and a queue [root.high] with
    a maximum of 100 of which 60 are allocating. *)
Definition rootCtx : preemption.preemptionQueueContext :=
  preemption.mkPreemptionQueueContext "root"
    (preemption.mkPreemptionQueueResources (mem 1000) ∅ ∅)
    (queueNamed "root" true (mem 900)) None.

Definition lowCtx : preemption.preemptionQueueContext :=
  preemption.mkPreemptionQueueContext "root.low"
    (preemption.mkPreemptionQueueResources (mem 1000) (mem 100) ∅)
    (queueNamed "root.low" true (mem 900)) (Some rootCtx).

Definition highCtx : preemption.preemptionQueueContext :=
  preemption.mkPreemptionQueueContext "root.high"
    (preemption.mkPreemptionQueueResources (mem 100) ∅ ∅)
    (queueNamed "root.high" true (mem 60)) (Some rootCtx).

(** Modelled from the spec: the fit check of a node, which the preemption
    code calls and another source file defines.  The ask fits when
    allocating + ask - preempting fits in the available resource, and a
    fitting ask is added to the allocating resource. *)
Definition fitCheck (node : preemption.SchedulingNode) (delta : Resource)
    (preemptionPhase : bool) : bool * preemption.SchedulingNode :=
  let newAllocating := Add delta (preemption.AllocatingResource node) in
  let newAllocating :=
    if preemptionPhase
    then Sub newAllocating (preemption.PreemptingResource node)
    else newAllocating in
  if FitIn (preemption.CachedAvailableResource node) newAllocating
  then (true, preemption.setNodeResources newAllocating
                (preemption.PreemptingResource node) node)
  else (false, node).

Definition partitionCtx : preemption.preemptionPartitionContext :=
  {| preemption.partitionTotalResource := mem 1000;
     preemption.leafQueues :=
       {[ "root.low"%string := lowCtx; "root.high"%string := highCtx ]} |}.

(** A running allocation of [root.low] on a node that has nothing left. *)
Definition lowAlloc : cache.AllocationInfo :=
  cache.mkAllocationInfo "uuid-1" "root.low" "app-low" (mem 60).

Definition fullNode : preemption.SchedulingNode :=
  {| preemption.NodeId := "node-1"; preemption.Partition := "default";
     preemption.AllocatingResource := ∅; preemption.PreemptingResource := ∅;
     preemption.CachedAvailableResource := mem 0;
     preemption.GetAllAllocations := [lowAlloc] |}.

(** A node with nothing left and nothing to preempt. *)
Definition bareNode : preemption.SchedulingNode :=
  {| preemption.NodeId := "node-2"; preemption.Partition := "default";
     preemption.AllocatingResource := ∅; preemption.PreemptingResource := ∅;
     preemption.CachedAvailableResource := mem 0;
     preemption.GetAllAllocations := [] |}.

(** An ask of 50 memory from [root.high], 10 more than the headroom of
    that queue. *)
Definition highAsk : SchedulingAllocationAsk :=
  {| AskProto := AskProto (askWith 1); AllocatedResource := mem 50;
     PendingRepeatAsk := 1; ApplicationId := "app-high";
     PartitionName := "default"; NormalizedPriority := 0;
     QueueName := "root.high" |}.

(** Two sibling queues: [root.a] proposes 50 of a guaranteed 100,
    [root.b] proposes 60 of a guaranteed 1000. *)
Definition fairQueue (path : string) (proposing guaranteed : Resource)
    : SchedulingQueue :=
  {| Name := path;
     CachedQueueInfo :=
       cache.mkQueueInfo path true cache.Running true guaranteed [] [];
     ProposingResource := proposing; PartitionResource := ∅;
     ApplicationSortType := FifoSortPolicy; QueueSortType := FairSortPolicy;
     childrenQueues := ∅; applications := ∅; parent := None;
     allocatingResource := ∅; pendingResource := ∅ |}.

Definition queueA : SchedulingQueue := fairQueue "root.a" (mem 50) (mem 100).
Definition queueB : SchedulingQueue := fairQueue "root.b" (mem 60) (mem 1000).

(** A cached root queue with one child [root.a] that placement created
    (not managed), and the scheduling queues built from it. *)
Definition cachedA : cache.QueueInfo :=
  cache.mkQueueInfo "root.a" false cache.Running true ∅ [] [].

Definition cachedRoot : cache.QueueInfo :=
  cache.mkQueueInfo "root" true cache.Running false ∅ [] [("a"%string, cachedA)].

Definition builtQueues : addr * store :=
  NewSchedulingQueueInfo "application.sort.policy" cachedRoot None ∅.

Definition rootAddr : addr := builtQueues.1.
Definition childAddr : addr := 2%positive.

(** A partition with the leaf queue [root.leaf], and a fixed rule
    [child] whose parent rule is the fixed rule [root.leaf]. *)
Definition leafPartition : placement.PartitionInfo :=
  {| placement.queues :=
       {[ "root"%string :=
            cache.mkQueueInfo "root" true cache.Running false ∅ [] [];
          "root.leaf"%string :=
            cache.mkQueueInfo "root.leaf" true cache.Running true ∅ [] [] ]} |}.

Definition leafRule : placement.fixedRule :=
  {| placement.create := false; placement.parent := None;
     placement.allowUser := λ _, true;
     placement.queue := "root.leaf"; placement.qualified := true |}.

Definition childRule : placement.fixedRule :=
  {| placement.create := true;
     placement.parent := Some (placement.asRule leafRule);
     placement.allowUser := λ _, true;
     placement.queue := "child"; placement.qualified := false |}.

Definition someApp : placement.ApplicationInfo :=
  {| placement.ApplicationId := "app-1";
     placement.GetUser := placement.mkUserGroup "test" [] |}.

(** An application with 7 memory pending. *)
Definition pendingApp : application.SchedulingApplication :=
  {| application.ApplicationInfo := cacheapp.mkApplicationInfo "app-1" 100;
     application.Requests := mem 7;
     application.MayAllocatedResource := ∅;
     application.queue := Some childAddr |}.

End samples.

(** * Properties *)

(** ** Resource algebra *)

Module resources_facts.

Lemma lookup_lift2 f (a b : Resource) k :
  lift2 f a b !! k =
    match a !! k, b !! k with
    | None, None => None
    | ox, oy => Some (f (default 0 ox) (default 0 oy))
    end.
Proof. unfold lift2. rewrite lookup_merge. by destruct (a !! k), (b !! k). Qed.

Lemma get_lift2 f (a b : Resource) k :
  f 0 0 = 0 → get (lift2 f a b) k = f (get a k) (get b k).
Proof.
  intros Hf. unfold get. rewrite lookup_lift2.
  destruct (a !! k), (b !! k); simpl; congruence.
Qed.

Lemma get_Add a b k : get (Add a b) k = get a k + get b k.
Proof. by apply get_lift2. Qed.

Lemma get_Sub a b k : get (Sub a b) k = get a k - get b k.
Proof. by apply get_lift2. Qed.

Lemma get_SubEliminateNegative a b k :
  get (SubEliminateNegative a b) k = Z.max 0 (get a k - get b k).
Proof. by apply (get_lift2 (λ x y, Z.max 0 (x - y))). Qed.

Lemma get_ComponentWiseMax a b k :
  get (ComponentWiseMax a b) k = Z.max (get a k) (get b k).
Proof. by apply get_lift2. Qed.

Lemma get_Zero k : get Zero k = 0.
Proof. done. Qed.

Lemma map_Exists_get (P : Z → Prop) (r : Resource) :
  ¬ P 0 → map_Exists (λ _ v, P v) r ↔ ∃ k, P (get r k).
Proof.
  intros H0. unfold get. split.
  - intros (k & v & Hk & Hv). exists k. by rewrite Hk.
  - intros (k & Hk). destruct (r !! k) as [v|] eqn:E; [|done].
    by exists k, v.
Qed.

Lemma map_Forall_get (P : Z → Prop) (r : Resource) :
  P 0 → map_Forall (λ _ v, P v) r ↔ ∀ k, P (get r k).
Proof.
  intros H0. unfold get. split.
  - intros H k. destruct (r !! k) as [v|] eqn:E; [|done]. by apply (H k).
  - intros H k v Hk. specialize (H k). by rewrite Hk in H.
Qed.

Lemma StrictlyGreaterThanZero_spec r :
  StrictlyGreaterThanZero r = true ↔ ∃ k, 0 < get r k.
Proof.
  unfold StrictlyGreaterThanZero. rewrite bool_decide_eq_true.
  apply (map_Exists_get (λ v, 0 < v)). lia.
Qed.

Lemma StrictlyGreaterThanOrEquals_spec larger smaller :
  StrictlyGreaterThanOrEquals larger smaller = true ↔
  ∀ k, get smaller k ≤ get larger k.
Proof.
  unfold StrictlyGreaterThanOrEquals. rewrite bool_decide_eq_true.
  rewrite (map_Forall_get (λ v, 0 ≤ v)) by lia.
  split; intros H k; specialize (H k); rewrite get_Sub in *; lia.
Qed.

Lemma StrictlyGreaterThan_spec larger smaller :
  StrictlyGreaterThan larger smaller = true ↔
  (∀ k, get smaller k ≤ get larger k) ∧ ∃ k, get smaller k < get larger k.
Proof.
  unfold StrictlyGreaterThan.
  rewrite andb_true_iff, !bool_decide_eq_true.
  rewrite (map_Forall_get (λ v, 0 ≤ v)) by lia.
  rewrite (map_Exists_get (λ v, 0 < v)) by lia.
  split; intros [H1 [k H2]]; (split; [intros k'; specialize (H1 k')|exists k]);
    rewrite get_Sub in *; lia.
Qed.

End resources_facts.

(** ** Pending repeats of an ask *)

Module ask_facts.

Import samples.

Lemma int32_wrap_id z : int32.in_range z → int32.wrap z = z.
Proof.
  unfold int32.in_range, int32.wrap, int32.min_int, int32.max_int. intros Hz.
  rewrite Z.mod_small; lia.
Qed.

Lemma int32_wrap_above z :
  int32.max_int < z ≤ 2 * int32.max_int + 1 → int32.wrap z = z - 4294967296.
Proof.
  unfold int32.wrap, int32.max_int. intros Hz.
  replace (z + 2147483648) with ((z - 2147483648) + 1 * 4294967296) by lia.
  rewrite Z.mod_add by lia. rewrite Z.mod_small; lia.
Qed.

Lemma int32_wrap_range z : int32.in_range (int32.wrap z).
Proof.
  unfold int32.in_range, int32.wrap, int32.min_int, int32.max_int.
  pose proof (Z.mod_pos_bound (z + 2147483648) 4294967296). lia.
Qed.

(** C5, as stated, fails on the code: with 2147483647 pending repeats and
    delta 1 the sum is not negative, yet the 32-bit sum wraps below zero and
    the call returns false. *)
Lemma AddPendingAskRepeat_rejects_at_max_int :
  ¬ (∀ m delta,
       int32.in_range (PendingRepeatAsk m) → int32.in_range delta →
       0 ≤ PendingRepeatAsk m + delta →
       AddPendingAskRepeat m delta
       = (true, setPendingRepeatAsk (PendingRepeatAsk m + delta) m)).
Proof.
  intros H. specialize (H (askWith 2147483647) 1).
  discriminate H; vm_compute; (split; discriminate) || discriminate.
Qed.

(** C5 (amended): for [int32] values, whenever the sum of the pending
    repeats and delta is itself an [int32], [AddPendingAskRepeat] returns
    true and stores the sum if the sum is not negative, and returns false
    without a change if it is negative; a sum above the largest [int32] is
    rejected without a change; and pending repeats that are not negative
    are never made negative. *)
Theorem AddPendingAskRepeat_spec m delta :
  int32.in_range (PendingRepeatAsk m) → int32.in_range delta →
  (int32.in_range (PendingRepeatAsk m + delta) →
     (0 ≤ PendingRepeatAsk m + delta →
        AddPendingAskRepeat m delta
        = (true, setPendingRepeatAsk (PendingRepeatAsk m + delta) m)) ∧
     (PendingRepeatAsk m + delta < 0 → AddPendingAskRepeat m delta = (false, m)))
  ∧ (int32.max_int < PendingRepeatAsk m + delta →
       AddPendingAskRepeat m delta = (false, m))
  ∧ (0 ≤ PendingRepeatAsk m →
       0 ≤ PendingRepeatAsk (AddPendingAskRepeat m delta).2).
Proof.
  intros Hm Hd. unfold AddPendingAskRepeat, int32.add. repeat split.
  - intros Hs. rewrite int32_wrap_id by done.
    destruct (Z.leb_spec 0 (PendingRepeatAsk m + delta)); [done|lia].
  - intros Hs. rewrite int32_wrap_id by done.
    destruct (Z.leb_spec 0 (PendingRepeatAsk m + delta)); [lia|done].
  - intros Hs. rewrite int32_wrap_above.
    + destruct (Z.leb_spec 0 (PendingRepeatAsk m + delta - 4294967296)); [|done].
      unfold int32.in_range, int32.min_int, int32.max_int in *. lia.
    + unfold int32.in_range, int32.min_int, int32.max_int in *. lia.
  - intros Hpos.
    destruct (Z.leb_spec 0 (int32.wrap (PendingRepeatAsk m + delta))); simpl; lia.
Qed.

Lemma AddPendingAskRepeat_spec_witness :
  AddPendingAskRepeat (askWith 3) (-1) = (true, setPendingRepeatAsk 2 (askWith 3))
  ∧ AddPendingAskRepeat (askWith 0) (-1) = (false, askWith 0).
Proof.
  split.
  - refine (proj1 (proj1 (AddPendingAskRepeat_spec (askWith 3) (-1) _ _) _) _);
      vm_compute; (split; discriminate) || discriminate.
  - refine (proj2 (proj1 (AddPendingAskRepeat_spec (askWith 0) (-1) _ _) _) _);
      vm_compute; (split; discriminate) || reflexivity.
Defined.

End ask_facts.

(** ** Headroom shortages *)

Module headroom_facts.

Import preemption resources_facts samples.

Lemma get_headroomOf c k :
  get (headroomOf c) k
  = get (max (resources c)) k - get (GetAllocatingResource (schedulingQueue c)) k
    + get (markedPreemptedResource (resources c)) k.
Proof. unfold headroomOf. by rewrite get_Add, get_Sub. Qed.

Lemma shortage_positive_iff ask c :
  StrictlyGreaterThanZero (shortageOf ask c) = true
  ↔ ∃ k, get (headroomOf c) k < get ask k.
Proof.
  rewrite StrictlyGreaterThanZero_spec. unfold shortageOf.
  split; intros [k Hk]; exists k; rewrite get_SubEliminateNegative in *; lia.
Qed.

Lemma ancestry_unfold c :
  ancestry c = c :: match parent c with Some p => ancestry p | None => [] end.
Proof. by destruct c. Qed.

Lemma headroomShortagesFrom_unfold ask c hs :
  headroomShortagesFrom ask c hs =
    let hs' := if StrictlyGreaterThanZero (shortageOf ask c)
               then <[queuePath c := shortageOf ask c]> hs else hs in
    match parent c with
    | Some p => headroomShortagesFrom ask p hs'
    | None => hs'
    end.
Proof. by destruct c. Qed.

(** Paths not on the walk keep their entry. *)
Lemma headroomShortagesFrom_other ask c : ∀ hs p,
  p ∉ queuePath <$> ancestry c →
  headroomShortagesFrom ask c hs !! p = hs !! p.
Proof.
  induction c as [c Hc|c par Hc IH] using context_ind; intros hs p Hp;
    rewrite headroomShortagesFrom_unfold; rewrite ancestry_unfold, Hc in Hp;
    rewrite Hc; simpl in *; apply not_elem_of_cons in Hp as [Hne Hp].
  - case_match; [by rewrite lookup_insert_ne|done].
  - rewrite IH by done. case_match; [by rewrite lookup_insert_ne|done].
Qed.

(** The entry of a context on the walk, when paths are pairwise distinct. *)
Lemma headroomShortagesFrom_on ask c : ∀ hs x,
  NoDup (queuePath <$> ancestry c) → x ∈ ancestry c →
  headroomShortagesFrom ask c hs !! queuePath x =
    if StrictlyGreaterThanZero (shortageOf ask x)
    then Some (shortageOf ask x) else hs !! queuePath x.
Proof.
  induction c as [c Hc|c par Hc IH] using context_ind; intros hs x Hnd Hx;
    rewrite headroomShortagesFrom_unfold; rewrite ancestry_unfold, Hc in Hnd, Hx;
    rewrite Hc; simpl in *; apply NoDup_cons in Hnd as [Hnotin Hnd];
    apply elem_of_cons in Hx as [->|Hx].
  - case_match; [by rewrite lookup_insert_eq|done].
  - by apply elem_of_nil in Hx.
  - rewrite headroomShortagesFrom_other by done.
    case_match; [by rewrite lookup_insert_eq|done].
  - rewrite IH by done.
    assert (queuePath c ≠ queuePath x) as Hne.
    { intros Heq. apply Hnotin. rewrite Heq. by apply list_elem_of_fmap_2. }
    case_match; [done|]. case_match; [by rewrite lookup_insert_ne|done].
Qed.

(** C6: for a preemptor whose chain of ancestors carries pairwise distinct
    queue paths, the map built by [initHeadroomShortages] has an entry for
    a path exactly when a queue on the chain from the preemptor to the root
    has that path and the ask exceeds the queue's headroom
    (max - allocating + marked-preempted) in some dimension; the entry is
    the componentwise difference ask - headroom cut off at zero, which is
    greater than zero in some dimension. *)
Theorem initHeadroomShortages_spec preemptor ask :
  NoDup (queuePath <$> ancestry preemptor) →
  ∀ p s,
    initHeadroomShortages preemptor ask !! p = Some s ↔
    ∃ c, c ∈ ancestry preemptor ∧ queuePath c = p
         ∧ (∃ k, get (max (resources c)) k
                   - get (GetAllocatingResource (schedulingQueue c)) k
                   + get (markedPreemptedResource (resources c)) k
                 < get ask k)
         ∧ s = SubEliminateNegative ask (headroomOf c)
         ∧ (∀ k, get s k
                 = Z.max 0 (get ask k
                            - (get (max (resources c)) k
                               - get (GetAllocatingResource (schedulingQueue c)) k
                               + get (markedPreemptedResource (resources c)) k)))
         ∧ (∃ k, 0 < get s k).
Proof.
  intros Hnd p s. unfold initHeadroomShortages. split.
  - intros Hs.
    destruct (decide (p ∈ queuePath <$> ancestry preemptor)) as [Hin|Hout].
    + apply list_elem_of_fmap in Hin as (c & -> & Hc).
      rewrite headroomShortagesFrom_on in Hs by done.
      destruct (StrictlyGreaterThanZero (shortageOf ask c)) eqn:Hpos;
        [|by rewrite lookup_empty in Hs].
      injection Hs as <-. exists c. repeat split; try done.
      * apply shortage_positive_iff in Hpos as [k Hk]. exists k.
        by rewrite <- get_headroomOf.
      * intros k. unfold shortageOf.
        by rewrite get_SubEliminateNegative, get_headroomOf.
      * by apply StrictlyGreaterThanZero_spec.
    + rewrite headroomShortagesFrom_other in Hs by done.
      by rewrite lookup_empty in Hs.
  - intros (c & Hc & <- & [k Hk] & -> & _).
    rewrite headroomShortagesFrom_on by done.
    rewrite <- get_headroomOf in Hk.
    assert (StrictlyGreaterThanZero (shortageOf ask c) = true) as ->; [|done].
    apply shortage_positive_iff. by exists k.
Qed.

Lemma initHeadroomShortages_spec_witness :
  NoDup (queuePath <$> ancestry highCtx)
  ∧ ∃ c, c ∈ ancestry highCtx ∧ queuePath c = "root.high"%string
         ∧ mem 10 = SubEliminateNegative (mem 50) (headroomOf c).
Proof.
  assert (NoDup (queuePath <$> ancestry highCtx)) as Hnd.
  { apply (bool_decide_unpack _). vm_compute. exact I. }
  split; [exact Hnd|].
  destruct (proj1 (initHeadroomShortages_spec highCtx (mem 50) Hnd
                     "root.high"%string (mem 10)))
    as (c & Hc & Hp & _ & Hs & _).
  - vm_compute. reflexivity.
  - exists c. done.
Defined.

End headroom_facts.

(** ** Surgical preemption on a node *)

Module surgical_facts.

Import preemption resources_facts samples.

Section walk.

Variable CheckAndAllocateResource :
  SchedulingNode → Resource → bool → bool * SchedulingNode.
Variable ctx : preemptionPartitionContext.
Variable preemptorQueue : preemptionQueueContext.
Variable candidate : SchedulingAllocationAsk.

Lemma get_resourceToPreemptOf node k :
  get (resourceToPreemptOf node candidate) k
  = Z.max 0 (get (AllocatingResource node) k + get (AllocatedResource candidate) k
             - get (PreemptingResource node) k
             - get (CachedAvailableResource node) k).
Proof.
  unfold resourceToPreemptOf.
  rewrite get_ComponentWiseMax, !get_Sub, get_Add, get_Zero. lia.
Qed.

(** The result of the walk, but not the shortage map it leaves, is the
    same whatever the shortage map is at the start. *)
Lemma surgicalWalk_result_any_shortages node toPreempt allocs :
  ∀ toRelease total hs hs',
    (surgicalWalk ctx preemptorQueue node candidate toPreempt allocs
                  toRelease total hs).1
    = (surgicalWalk ctx preemptorQueue node candidate toPreempt allocs
                    toRelease total hs').1.
Proof.
  induction allocs as [|alloc rest IH]; intros toRelease total hs hs'; [done|].
  simpl. destruct (leafQueues ctx !! cache.QueueName alloc) as [q|]; [|apply IH].
  destruct (skipsQueue ctx candidate q); [apply IH|].
  destruct (headroomShortageUpdate preemptorQueue q
              (cache.AllocatedResource alloc) hs) as [b1 hs1].
  destruct (headroomShortageUpdate preemptorQueue q
              (cache.AllocatedResource alloc) hs') as [b2 hs2].
  destruct (StrictlyGreaterThanOrEquals _ _); [done|apply IH].
Qed.

Lemma trySurgical_result_any_shortages node hs hs' :
  (trySurgicalPreemptionOnNode CheckAndAllocateResource ctx preemptorQueue
     node candidate hs).1
  = (trySurgicalPreemptionOnNode CheckAndAllocateResource ctx preemptorQueue
       node candidate hs').1.
Proof.
  unfold trySurgicalPreemptionOnNode.
  destruct (CheckAndAllocateResource node (AllocatedResource candidate) true)
    as [[] node']; [done|].
  apply surgicalWalk_result_any_shortages.
Qed.

(** What the walk returns, in terms of the allocations it does not skip:
    the release set and total of their shortest prefix whose total reaches
    the amount to preempt, or nil when no prefix does. *)
Lemma surgicalWalk_spec node toPreempt allocs :
  ∀ toRelease total hs,
    match (surgicalWalk ctx preemptorQueue node candidate toPreempt allocs
                        toRelease total hs).1 with
    | Some r =>
        ∃ n, (n < length (victimsOf ctx candidate allocs))%nat
             ∧ totalReleasedResource r
               = releasedTotal total (take (S n) (victimsOf ctx candidate allocs))
             ∧ toReleaseAllocations r
               = releasedSet toRelease (take (S n) (victimsOf ctx candidate allocs))
             ∧ StrictlyGreaterThanOrEquals (totalReleasedResource r) toPreempt = true
             ∧ ∀ m, (m < n)%nat →
                 StrictlyGreaterThanOrEquals
                   (releasedTotal total (take (S m) (victimsOf ctx candidate allocs)))
                   toPreempt = false
    | None =>
        ∀ m, (m < length (victimsOf ctx candidate allocs))%nat →
          StrictlyGreaterThanOrEquals
            (releasedTotal total (take (S m) (victimsOf ctx candidate allocs)))
            toPreempt = false
    end.
Proof.
  induction allocs as [|alloc rest IH]; intros toRelease total hs.
  { simpl. intros m Hm. lia. }
  simpl. unfold isVictim.
  destruct (leafQueues ctx !! cache.QueueName alloc) as [q|]; [|apply IH].
  destruct (skipsQueue ctx candidate q); simpl; [apply IH|].
  destruct (headroomShortageUpdate preemptorQueue q
              (cache.AllocatedResource alloc) hs) as [b hs1].
  destruct (StrictlyGreaterThanOrEquals
              (Add total (cache.AllocatedResource alloc)) toPreempt) eqn:Hreach.
  - simpl. exists 0%nat. repeat split; [lia|done|]. intros m Hm. lia.
  - specialize (IH (<[cache.Uuid alloc := alloc]> toRelease)
                   (Add total (cache.AllocatedResource alloc)) hs1).
    destruct (surgicalWalk _ _ _ _ _ rest _ _ hs1).1 as [r|].
    + destruct IH as (n & Hn & Htot & Hset & Hge & Hmin).
      exists (S n). repeat split; [lia|done|done|done|].
      intros [|m] Hm; [done|]. apply Hmin. lia.
    + intros [|m] Hm; [done|]. apply IH. lia.
Qed.

Lemma firstPreemptResult_none nodes :
  ∀ hs hs0,
    (∀ node, node ∈ nodes →
       (trySurgicalPreemptionOnNode CheckAndAllocateResource ctx preemptorQueue
          node candidate hs0).1 = None) →
    (firstPreemptResult CheckAndAllocateResource ctx preemptorQueue nodes
       candidate hs).1 = None.
Proof.
  induction nodes as [|node rest IH]; intros hs hs0 Hall; [done|].
  simpl.
  pose proof (Hall node (list_elem_of_here _ _)) as Hnode.
  rewrite (trySurgical_result_any_shortages node hs0 hs) in Hnode.
  destruct (trySurgicalPreemptionOnNode _ _ _ node _ hs) as [[r|] hs1];
    [done|].
  apply (IH hs1 hs0). intros n Hn. apply Hall. by apply list_elem_of_further.
Qed.

End walk.

(** C7: a result of [trySurgicalPreemptionOnNode] that is not nil either
    comes from the ask fitting the node, with an empty release set, or
    carries the total of the victims taken so far, which is componentwise
    at least max(0, allocating + ask - preempting - available); when no
    run of victims reaches that amount the result is nil; and
    [crossQueuePreemptionAllocate] returns nil when the call returns nil
    for every node. *)
Theorem trySurgicalPreemptionOnNode_enough_or_nil
    (CheckAndAllocateResource : SchedulingNode → Resource → bool → bool * SchedulingNode)
    ctx preemptorQueue candidate node hs :
  let fits := (CheckAndAllocateResource node (AllocatedResource candidate) true).1 in
  let victims :=
    victimsOf ctx candidate
      (GetAllAllocations
         (CheckAndAllocateResource node (AllocatedResource candidate) true).2) in
  let toPreempt k :=
    Z.max 0 (get (AllocatingResource node) k + get (AllocatedResource candidate) k
             - get (PreemptingResource node) k
             - get (CachedAvailableResource node) k) in
  let result :=
    (trySurgicalPreemptionOnNode CheckAndAllocateResource ctx preemptorQueue
       node candidate hs).1 in
  (∀ r, result = Some r →
     (fits = true ∧ toReleaseAllocations r = ∅ ∧ totalReleasedResource r = Zero)
     ∨ (fits = false
        ∧ (∃ n, (n < length victims)%nat
                ∧ totalReleasedResource r
                  = releasedTotal NewResource (take (S n) victims)
                ∧ toReleaseAllocations r = releasedSet ∅ (take (S n) victims))
        ∧ ∀ k, toPreempt k ≤ get (totalReleasedResource r) k))
  ∧ (fits = false →
     (∀ m, (m < length victims)%nat →
        ¬ ∀ k, toPreempt k
               ≤ get (releasedTotal NewResource (take (S m) victims)) k) →
     result = None)
  ∧ (∀ partitionContext nodes,
       (∀ c preemptor n,
          partitionContext = Some c →
          leafQueues c !! QueueName candidate = Some preemptor →
          n ∈ nodes →
          (trySurgicalPreemptionOnNode CheckAndAllocateResource c
             preemptor n candidate hs).1 = None) →
       crossQueuePreemptionAllocate CheckAndAllocateResource partitionContext
         nodes candidate = None).
Proof.
  intros fits victims toPreempt result.
  assert (∀ partitionContext nodes,
            (∀ c preemptor n,
               partitionContext = Some c →
               leafQueues c !! QueueName candidate = Some preemptor →
               n ∈ nodes →
               (trySurgicalPreemptionOnNode CheckAndAllocateResource c
                  preemptor n candidate hs).1 = None) →
            crossQueuePreemptionAllocate CheckAndAllocateResource
              partitionContext nodes candidate = None) as Hcross.
  { intros [c|] nodes Hall; [|done]. unfold crossQueuePreemptionAllocate.
    destruct (leafQueues c !! QueueName candidate) as [pq|] eqn:Hq; [|done].
    pose proof (firstPreemptResult_none CheckAndAllocateResource c pq candidate
                  nodes (initHeadroomShortages pq (AllocatedResource candidate))
                  hs (λ n Hn, Hall c pq n eq_refl Hq Hn)) as Hnone.
    by destruct (firstPreemptResult _ _ _ _ _ _) as [[?|] ?]. }
  assert (∀ total,
            StrictlyGreaterThanOrEquals total (resourceToPreemptOf node candidate)
            = true ↔ ∀ k, toPreempt k ≤ get total k) as Hge.
  { intros total. rewrite StrictlyGreaterThanOrEquals_spec.
    split; intros H k; specialize (H k);
      by rewrite get_resourceToPreemptOf in *. }
  pose proof (surgicalWalk_spec ctx preemptorQueue candidate
                (CheckAndAllocateResource node (AllocatedResource candidate) true).2
                (resourceToPreemptOf node candidate)
                (GetAllAllocations
                   (CheckAndAllocateResource node (AllocatedResource candidate) true).2)
                ∅ NewResource hs) as Hwalk.
  subst result fits victims. unfold trySurgicalPreemptionOnNode in *.
  destruct (CheckAndAllocateResource node (AllocatedResource candidate) true)
    as [[] node']; simpl in *.
  - split; [|split].
    + intros r [= <-]. by left.
    + done.
    + apply Hcross.
  - split; [|split].
    + intros r Hr. rewrite Hr in Hwalk.
      destruct Hwalk as (n & Hn & Htot & Hset & Hreach & _).
      right. split; [done|]. split; [by exists n|]. by apply Hge.
    + intros _ Hnever.
      destruct (surgicalWalk _ _ _ _ _ _ _ _ _).1 as [r|]; [|done].
      destruct Hwalk as (n & Hn & Htot & _ & Hreach & _).
      exfalso. apply (Hnever n Hn). rewrite <- Htot. by apply Hge.
    + apply Hcross.
Qed.

Lemma trySurgicalPreemptionOnNode_enough_or_nil_witness :
  (∃ r, (trySurgicalPreemptionOnNode fitCheck partitionCtx highCtx fullNode
           highAsk ∅).1 = Some r
        ∧ ∀ k, Z.max 0 (get (mem 50) k - get (mem 0) k)
               ≤ get (totalReleasedResource r) k)
  ∧ crossQueuePreemptionAllocate fitCheck (Some partitionCtx) [bareNode] highAsk
    = None.
Proof.
  split.
  - destruct (trySurgicalPreemptionOnNode fitCheck partitionCtx highCtx fullNode
                highAsk ∅).1 as [r|] eqn:Hr; [|by vm_compute in Hr].
    exists r. split; [done|].
    destruct (proj1 (trySurgicalPreemptionOnNode_enough_or_nil
                       fitCheck partitionCtx highCtx highAsk fullNode ∅) r Hr)
      as [[Hfit _]|(_ & _ & Hge)]; [by vm_compute in Hfit|].
    intros k. specialize (Hge k). simpl in Hge.
    change (get ∅ k) with 0 in Hge. lia.
  - apply (proj2 (proj2 (trySurgicalPreemptionOnNode_enough_or_nil
                           fitCheck partitionCtx highCtx highAsk bareNode ∅))).
    intros c preemptor n [= <-] Hq Hn.
    apply list_elem_of_singleton in Hn as ->.
    vm_compute in Hq. injection Hq as <-. vm_compute. reflexivity.
Defined.

(** C1 fails on the code: the victim [uuid-1] of [root.low] credits
    nothing against the shortage of [root.high] (the update returns false),
    and it is nevertheless put into the release set and released by the
    proposal. *)
Theorem victim_kept_without_contribution :
  let hs := initHeadroomShortages highCtx (AllocatedResource highAsk) in
  hs !! "root.high"%string = Some (mem 10)
  ∧ headroomShortageUpdate highCtx lowCtx (cache.AllocatedResource lowAlloc) hs
    = (false, hs)
  ∧ (toReleaseAllocations
       <$> (trySurgicalPreemptionOnNode fitCheck partitionCtx highCtx fullNode
              highAsk hs).1)
    = Some {[ "uuid-1"%string := lowAlloc ]}
  ∧ (Releases
       <$> crossQueuePreemptionAllocate fitCheck (Some partitionCtx)
             [fullNode] highAsk)
    = Some [ {| releaseUuid := "uuid-1"; releaseApplicationId := "app-low";
                releasePartitionName := "default";
                ReleaseType := PREEMPTED_BY_SCHEDULER |} ].
Proof. vm_compute. repeat split; reflexivity. Qed.

(** When the shortage map is empty, no allocation makes a contribution. *)
Lemma headroomShortageUpdate_empty preemptor preemptee r :
  headroomShortageUpdate preemptor preemptee r ∅ = (false, ∅).
Proof. done. Qed.

End surgical_facts.

(** ** Sorting queues *)

Module sort_facts.

Import samples.

(** On two queues the sort asks one question: is the second less than the
    first, both measured against the guaranteed resource of the second. *)
Lemma SortQueue_pair l r :
  SortQueue [l; r] FairSortPolicy
  = if lessFairQueue r l then [r; l] else [l; r].
Proof.
  unfold SortQueue. rewrite decide_True by done.
  unfold SliceStable. simpl. by destruct (lessFairQueue r l).
Qed.

(** C2 fails on the code: [root.a] uses half of its guaranteed resource
    and [root.b] 6 percent of its own, so [root.b] has the lower fairness
    ratio; the sorted result nevertheless puts [root.a] first, from either
    order of the input. *)
Theorem SortQueue_ignores_right_guarantee :
  ownRatioComp queueB queueA = -1
  ∧ ownRatioComp queueA queueB = 1
  ∧ SortQueue [queueA; queueB] FairSortPolicy = [queueA; queueB]
  ∧ SortQueue [queueB; queueA] FairSortPolicy = [queueA; queueB].
Proof. rewrite !SortQueue_pair. vm_compute. repeat split; reflexivity. Qed.

End sort_facts.

(** ** Stopping the partition manager *)

Module manager_facts.

Import manager.

Lemma spawn_unstoppable : unstoppable spawn.
Proof. done. Qed.

Lemma step_unstoppable w e : unstoppable w → unstoppable (step w e).
Proof.
  destruct w as [p [[s i] l c] r]. unfold unstoppable. simpl.
  intros (-> & -> & ->). by destruct e.
Qed.

Lemma exec_unstoppable evs : ∀ w, unstoppable w → unstoppable (exec w evs).
Proof.
  induction evs as [|e evs IH]; intros w Hw; [done|].
  simpl. by apply IH, step_unstoppable.
Qed.

Lemma exec_cleanRuns evs : ∀ w,
  unstoppable w →
  cleanRuns (run (exec w evs))
  = (cleanRuns (run w) + length (filter (λ e, e = Tick) evs))%nat.
Proof.
  induction evs as [|e evs IH]; intros w Hw; [simpl; lia|].
  simpl. rewrite IH by by apply step_unstoppable.
  destruct w as [p [[s i] l c] r]. destruct Hw as (Hstop & Hloop & Hrem).
  simpl in *. subst.
  destruct e; simpl; rewrite ?filter_cons_False, ?filter_cons_True by done;
    simpl; lia.
Qed.

(** C3 fails on the code: [Stop] and [Run] have value receivers, so after
    a partition is created, whatever calls of [Stop] and assignments of the
    stop flag happen and however many ticks follow, the loop of [Run] is
    still running with its own flag unset, [remove] has not been executed,
    and every tick has cleaned the queues once more. *)
Theorem Run_never_sees_stop evs :
  let w := exec spawn evs in
  stop (receiver (run w)) = false
  ∧ looping (run w) = true
  ∧ removed w = false
  ∧ cleanRuns (run w) = length (filter (λ e, e = Tick) evs).
Proof.
  simpl. pose proof (exec_unstoppable evs spawn spawn_unstoppable) as (?&?&?).
  repeat split; try done.
  by rewrite exec_cleanRuns by apply spawn_unstoppable.
Qed.

(** The same at one run: a stop is requested both ways, then the manager
    ticks three times. *)
Lemma Run_ticks_after_stop :
  let w := exec spawn [Tick; CallStop; SetStopFlag; Tick; Tick; Tick] in
  stop (pointee w) = true ∧ looping (run w) = true ∧ removed w = false
  ∧ cleanRuns (run w) = 4%nat.
Proof. done. Qed.

End manager_facts.

(** ** Queues: pending resource and removal *)

Module queue_facts.

Import resources_facts samples.

Lemma IncPendingResource_shape delta fuel : ∀ st sq,
  IncPendingResource fuel st sq delta
  = updatePending (λ r, Add r delta) fuel st sq.
Proof.
  induction fuel as [|fuel IH]; intros st sq; [done|]. simpl.
  destruct (st !! sq) as [q|]; [|done]. simpl.
  destruct (parent q); [by rewrite IH|done].
Qed.

Lemma DecPendingResource_shape delta fuel : ∀ st sq,
  DecPendingResource fuel st sq delta
  = updatePending (λ r, Sub r delta) fuel st sq.
Proof.
  induction fuel as [|fuel IH]; intros st sq; [done|]. simpl.
  destruct (st !! sq) as [q|]; [|done]. simpl.
  destruct (parent q); [by rewrite IH|done].
Qed.

(** The chain of ancestors does not depend on the fuel that finds it. *)
Lemma ancestors_fuel (st : store) fuel1 : ∀ fuel2 sq l1 l2,
  ancestors fuel1 st sq = Some l1 → ancestors fuel2 st sq = Some l2 → l1 = l2.
Proof.
  induction fuel1 as [|fuel1 IH]; intros [|fuel2] sq l1 l2; try done.
  simpl. destruct (st !! sq) as [q|]; [|done]. simpl.
  destruct (parent q) as [p|]; [|congruence].
  destruct (ancestors fuel1 st p) as [l1'|] eqn:E1; [|done].
  destruct (ancestors fuel2 st p) as [l2'|] eqn:E2; [|done].
  simpl. intros [= <-] [= <-]. f_equal. by eapply IH.
Qed.

(** Every member of a chain has a chain of its own that is not longer. *)
Lemma ancestors_member (st : store) fuel : ∀ sq l a,
  ancestors fuel st sq = Some l → a ∈ l →
  ∃ fuel' l', ancestors fuel' st a = Some l' ∧ (length l' ≤ length l)%nat.
Proof.
  induction fuel as [|fuel IH]; intros sq l a; [done|].
  intros Hl Ha. pose proof Hl as Hl0. simpl in Hl.
  destruct (st !! sq) as [q|]; [|done]. simpl in Hl.
  destruct (parent q) as [p|].
  - destruct (ancestors fuel st p) as [l0|] eqn:E; [|done].
    simpl in Hl. injection Hl as <-.
    apply elem_of_cons in Ha as [->|Ha]; [by exists (S fuel), (sq :: l0)|].
    destruct (IH p l0 a E Ha) as (fuel' & l' & H1 & H2).
    exists fuel', l'. split; [done|]. simpl. lia.
  - injection Hl as <-. apply list_elem_of_singleton in Ha as ->.
    by exists (S fuel), [sq].
Qed.

(** No queue is its own ancestor on a chain that reaches the root. *)
Lemma ancestors_acyclic (st : store) fuel sq l :
  ancestors fuel st sq = Some (sq :: l) → sq ∉ l.
Proof.
  intros Hl Hin. pose proof Hl as Hl0.
  destruct fuel as [|fuel]; [done|]. simpl in Hl.
  destruct (st !! sq) as [q|]; [|done]. simpl in Hl.
  destruct (parent q) as [p|]; [|by injection Hl as <-; apply elem_of_nil in Hin].
  destruct (ancestors fuel st p) as [l0|] eqn:E; [|done].
  simpl in Hl. injection Hl as <-.
  destruct (ancestors_member st fuel p l0 sq E Hin) as (fuel' & l' & H1 & H2).
  pose proof (ancestors_fuel st _ _ _ _ _ Hl0 H1) as <-. simpl in H2. lia.
Qed.

(** A chain starts at the queue asked for, steps from each queue to its
    parent, and ends at a queue without a parent. *)
Lemma ancestors_links (st : store) fuel : ∀ sq l,
  ancestors fuel st sq = Some l →
  head l = Some sq
  ∧ (∀ i a b, l !! i = Some a → l !! S i = Some b →
       parent <$> st !! a = Some (Some b))
  ∧ (∀ a, last l = Some a → parent <$> st !! a = Some None).
Proof.
  induction fuel as [|fuel IH]; intros sq l Hl; [done|]. simpl in Hl.
  destruct (st !! sq) as [q|] eqn:Hq; [|done]. simpl in Hl.
  destruct (parent q) as [p|] eqn:Hp.
  - destruct (ancestors fuel st p) as [l0|] eqn:E; [|done].
    simpl in Hl. injection Hl as <-.
    destruct (IH p l0 E) as (Hhead & Hlinks & Hlast).
    split; [done|]. split.
    + intros [|i] a b Ha Hb; simpl in *.
      * injection Ha as <-. rewrite Hq. simpl. rewrite Hp.
        destruct l0; simpl in *; congruence.
      * by eapply Hlinks.
    + intros a Ha. apply Hlast. destruct l0; [done|]. by rewrite last_cons_cons in Ha.
  - injection Hl as <-. split; [done|]. split; [by intros [|i] a b|].
    intros a [= <-]. by rewrite Hq; simpl; rewrite Hp.
Qed.

(** The update changes the queues of the chain, each once, and no other. *)
Lemma updatePending_spec f (st : store) fuel : ∀ sq l,
  ancestors fuel st sq = Some l →
  ∃ st', updatePending f fuel st sq = Some st'
         ∧ ∀ a, st' !! a = if decide (a ∈ l)
                           then setPendingResource f <$> st !! a
                           else st !! a.
Proof.
  induction fuel as [|fuel IH]; intros sq l Hl; [done|].
  pose proof Hl as Hl0. simpl in Hl. simpl.
  destruct (st !! sq) as [q|] eqn:Hq; [|done]. simpl in Hl. simpl.
  destruct (parent q) as [p|].
  - destruct (ancestors fuel st p) as [l0|] eqn:E; [|done].
    simpl in Hl. injection Hl as <-.
    destruct (IH p l0 E) as (st1 & -> & Hst1). simpl.
    eexists. split; [done|]. intros a. rewrite lookup_alter.
    pose proof (ancestors_acyclic st (S fuel) sq l0 Hl0) as Hnotin.
    destruct (decide (sq = a)) as [<-|Hne].
    + rewrite Hst1, decide_False by done.
      by rewrite decide_True by apply list_elem_of_here.
    + rewrite Hst1. destruct (decide (a ∈ l0)) as [Hin|Hout].
      * by rewrite decide_True by by apply list_elem_of_further.
      * rewrite decide_False; [done|].
        intros [->|?]%elem_of_cons; done.
  - injection Hl as <-. eexists. split; [done|]. intros a.
    rewrite lookup_alter. destruct (decide (sq = a)) as [<-|Hne].
    + by rewrite decide_True by apply list_elem_of_here.
    + rewrite decide_False; [done|]. by intros ->%list_elem_of_singleton.
Qed.

(** C10: when the parent links lead from queue [sq] to the root along the
    chain [l], [IncPendingResource] returns, adds delta to the pending
    resource of [sq] and of every ancestor on the chain and leaves every
    other queue, and every other field, as it was; [DecPendingResource]
    subtracts delta from the same queues and from no other. *)
Theorem pending_resource_frame fuel (st : store) sq delta l :
  ancestors fuel st sq = Some l →
  sq ∈ l
  ∧ (∃ st', IncPendingResource fuel st sq delta = Some st'
            ∧ (∀ a q, a ∈ l → st !! a = Some q →
                 st' !! a
                 = Some (setPendingResource (λ r, Add r delta) q))
            ∧ (∀ a, a ∉ l → st' !! a = st !! a))
  ∧ (∃ st', DecPendingResource fuel st sq delta = Some st'
            ∧ (∀ a q, a ∈ l → st !! a = Some q →
                 st' !! a
                 = Some (setPendingResource (λ r, Sub r delta) q))
            ∧ (∀ a, a ∉ l → st' !! a = st !! a)).
Proof.
  intros Hl. split; [|split].
  - destruct fuel as [|fuel]; [done|]. simpl in Hl.
    destruct (st !! sq) as [q|]; [|done]. simpl in Hl.
    destruct (parent q) as [p|]; [|injection Hl as <-; apply list_elem_of_here].
    destruct (ancestors fuel st p); [|done].
    injection Hl as <-. apply list_elem_of_here.
  - rewrite IncPendingResource_shape.
    destruct (updatePending_spec (λ r, Add r delta) st fuel sq l Hl)
      as (st' & -> & Hst'). exists st'. split; [done|]. split.
    + intros a q Ha Hq. by rewrite Hst', decide_True, Hq.
    + intros a Ha. by rewrite Hst', decide_False.
  - rewrite DecPendingResource_shape.
    destruct (updatePending_spec (λ r, Sub r delta) st fuel sq l Hl)
      as (st' & -> & Hst'). exists st'. split; [done|]. split.
    + intros a q Ha Hq. by rewrite Hst', decide_True, Hq.
    + intros a Ha. by rewrite Hst', decide_False.
Qed.

Lemma pending_resource_frame_witness :
  ancestors 2 builtQueues.2 childAddr = Some [childAddr; rootAddr]
  ∧ ∃ st', IncPendingResource 2 builtQueues.2 childAddr (mem 5) = Some st'
           ∧ (pendingResource <$> st' !! rootAddr) = Some (Add ∅ (mem 5)).
Proof.
  assert (ancestors 2 builtQueues.2 childAddr = Some [childAddr; rootAddr])
    as Hl by (vm_compute; reflexivity).
  split; [exact Hl|].
  destruct (pending_resource_frame 2 builtQueues.2 childAddr (mem 5) _ Hl)
    as (_ & (st' & Hinc & Hon & _) & _).
  exists st'. split; [exact Hinc|].
  destruct (builtQueues.2 !! rootAddr) as [q|] eqn:Hq;
    [|by vm_compute in Hq].
  rewrite (Hon rootAddr q); [|vm_compute; set_solver|done].
  simpl. f_equal. f_equal.
  vm_compute in Hq. by injection Hq as <-.
Defined.

(** C9: nothing bounds [DecPendingResource] from below.  On the queues
    built for [root] and [root.a], an increase of the pending memory of
    [root.a] by 5 followed by a decrease by 7 leaves -2 pending memory on
    [root.a] and on [root]. *)
Theorem pending_resource_goes_negative :
  ∃ st' child root,
    applyCalls 2 builtQueues.2
      [CallInc childAddr (mem 5); CallDec childAddr (mem 7)] = Some st'
    ∧ st' !! childAddr = Some child
    ∧ st' !! rootAddr = Some root
    ∧ get (pendingResource child) "memory" = -2
    ∧ get (pendingResource root) "memory" = -2.
Proof. vm_compute. eexists _, _, _. repeat split; reflexivity. Qed.

(** [RemoveQueue] refuses, and changes nothing, for a managed running
    queue and for a queue with children or applications. *)
Lemma RemoveQueue_refuses (st : store) sq q :
  st !! sq = Some q →
  (isManaged q && isRunning q = true)
  ∨ (0 < size (childrenQueues q))%nat ∨ (0 < size (applications q))%nat →
  RemoveQueue st sq = Returns (false, st).
Proof.
  intros Hq Hcase. unfold RemoveQueue. rewrite Hq.
  destruct (isManaged q && isRunning q); [done|].
  destruct Hcase as [?|[H|H]]; [done| |].
  - by rewrite (bool_decide_eq_true_2 _ H).
  - rewrite (bool_decide_eq_true_2 _ H). by rewrite orb_true_r.
Qed.

(** The root has no parent to be removed from: the call refuses or fails. *)
Lemma RemoveQueue_root (st : store) sq q st' :
  st !! sq = Some q → parent q = None → RemoveQueue st sq ≠ Returns (true, st').
Proof.
  intros Hq Hp. unfold RemoveQueue. rewrite Hq, Hp.
  by repeat case_match.
Qed.

(** A successful [RemoveQueue] deletes the key equal to the queue's full
    name from the children of the parent, and nothing else. *)
Lemma RemoveQueue_done (st : store) sq q st' :
  st !! sq = Some q → RemoveQueue st sq = Returns (true, st') →
  ∃ p, parent q = Some p
       ∧ st' = alter (setChildrenQueues (delete (Name q))) p st.
Proof.
  intros Hq. unfold RemoveQueue, removeChildQueue. rewrite Hq.
  repeat case_match; try done. intros [= <-]. by eexists.
Qed.

(** So an entry of the parent under any other key, such as the leaf name
    the queue was registered with, survives the removal. *)
Lemma RemoveQueue_keeps_other_key (st : store) sq q st' p pq k :
  st !! sq = Some q → RemoveQueue st sq = Returns (true, st') →
  parent q = Some p → st !! p = Some pq →
  k ≠ Name q → childrenQueues pq !! k = Some sq →
  (st' !! p ≫= λ x, childrenQueues x !! k) = Some sq.
Proof.
  intros Hq Hrm Hp Hpq Hk Hentry.
  destruct (RemoveQueue_done st sq q st' Hq Hrm) as (p' & Hp' & ->).
  assert (p' = p) as -> by congruence.
  rewrite lookup_alter_eq, Hpq. simpl. by rewrite lookup_delete_ne.
Qed.

(** C4 fails on the code: [root.a] is registered with the root under the
    key [a]; it is not managed and is empty, so [RemoveQueue] returns true,
    but it asks the root to delete the key [root.a], and the root still
    maps [a] to the removed queue. *)
Theorem RemoveQueue_leaves_child_entry :
  rootAddr = 1%positive
  ∧ (Name <$> builtQueues.2 !! childAddr) = Some "root.a"%string
  ∧ (parent <$> builtQueues.2 !! childAddr) = Some (Some rootAddr)
  ∧ (builtQueues.2 !! rootAddr ≫= λ q, childrenQueues q !! "a"%string)
    = Some childAddr
  ∧ ∃ st', RemoveQueue builtQueues.2 childAddr = Returns (true, st')
           ∧ (st' !! rootAddr ≫= λ q, childrenQueues q !! "a"%string)
             = Some childAddr.
Proof.
  vm_compute. repeat split; try reflexivity.
  eexists. split; reflexivity.
Qed.

End queue_facts.

(** ** The fixed placement rule *)

Module placement_facts.

Import placement samples.

(** C8: for a fixed rule with an unqualified queue and a parent rule, when
    the parent rule (run for a user the filter lets through) returns a
    path that is not empty and, made fully qualified, names a leaf queue of
    the partition, [placeApplication] returns the empty path with an error;
    for a user the filter stops the path is empty as well. *)
Theorem fixed_rule_rejects_leaf_parent fr p app info parentName err q :
  qualified fr = false →
  parent fr = Some p →
  placeApplication p app info = Returns (parentName, err) →
  parentName ≠ ""%string →
  GetQueue info (qualify parentName) = Some q →
  cache.IsLeafQueue q = true →
  (allowUser fr (GetUser app) = true →
     ∃ e, fixed_placeApplication fr app info = Returns (""%string, Some e))
  ∧ ∃ e, fixed_placeApplication fr app info = Returns (""%string, e).
Proof.
  intros Hq Hp Hparent Hne Hget Hleaf. unfold fixed_placeApplication.
  rewrite Hq, Hp, Hparent. simpl.
  destruct (allowUser fr (GetUser app)); simpl.
  - destruct err as [e|]; [by split; [intros _|]; exists e + exists (Some e)|].
    rewrite bool_decide_eq_false_2 by done. rewrite Hget, Hleaf.
    split; [intros _|]; by eexists.
  - split; [done|]. by eexists.
Qed.

Lemma fixed_rule_rejects_leaf_parent_witness :
  ∃ e, fixed_placeApplication childRule someApp leafPartition
       = Returns (""%string, Some e).
Proof.
  refine (proj1 (fixed_rule_rejects_leaf_parent childRule (asRule leafRule)
                   someApp leafPartition "root.leaf" None
                   (cache.mkQueueInfo "root.leaf" true cache.Running true ∅ [] [])
                   _ _ _ _ _ _) _);
    vm_compute; reflexivity || discriminate.
Defined.

End placement_facts.


(** ** Pending repeats: runs of calls *)

Module ask_more_facts.

Import samples.

Lemma wrap_accepted old delta :
  0 ≤ old → int32.in_range old → int32.in_range delta →
  0 ≤ int32.wrap (old + delta) → int32.wrap (old + delta) = old + delta.
Proof.
  intros Hold Hr Hd Hacc.
  destruct (decide (old + delta ≤ int32.max_int)) as [Hle|Hgt].
  - apply ask_facts.int32_wrap_id.
    unfold int32.in_range, int32.min_int, int32.max_int in *. lia.
  - rewrite ask_facts.int32_wrap_above in Hacc;
      unfold int32.in_range, int32.min_int, int32.max_int in *; lia.
Qed.

Lemma setPendingRepeatAsk_same m v :
  setPendingRepeatAsk (PendingRepeatAsk m) (setPendingRepeatAsk v m) = m.
Proof. by destruct m. Qed.

(** X1: a delta that [AddPendingAskRepeat] accepted on pending repeats
    that were not negative is undone by the opposite delta: the second
    call returns true as well and gives back the ask as it was. *)
Theorem AddPendingAskRepeat_undo m delta m' :
  int32.in_range (PendingRepeatAsk m) → int32.in_range delta →
  int32.in_range (- delta) → 0 ≤ PendingRepeatAsk m →
  AddPendingAskRepeat m delta = (true, m') →
  AddPendingAskRepeat m' (- delta) = (true, m).
Proof.
  intros Hm Hd Hnd Hpos. unfold AddPendingAskRepeat, int32.add.
  destruct (Z.leb_spec 0 (int32.wrap (PendingRepeatAsk m + delta)))
    as [Hacc|]; [|done].
  intros [= <-]. simpl.
  rewrite (wrap_accepted (PendingRepeatAsk m) delta) by done.
  replace (PendingRepeatAsk m + delta + - delta) with (PendingRepeatAsk m) by lia.
  rewrite ask_facts.int32_wrap_id by done.
  destruct (Z.leb_spec 0 (PendingRepeatAsk m)); [|lia].
  by rewrite setPendingRepeatAsk_same.
Qed.

Lemma AddPendingAskRepeat_undo_witness :
  AddPendingAskRepeat (setPendingRepeatAsk 5 (askWith 3)) (-2) = (true, askWith 3).
Proof.
  apply (AddPendingAskRepeat_undo (askWith 3) 2);
    vm_compute; (split; discriminate) || discriminate || reflexivity.
Defined.

Lemma AddPendingAskRepeat_keeps m delta :
  0 ≤ PendingRepeatAsk m ≤ int32.max_int →
  0 ≤ PendingRepeatAsk (AddPendingAskRepeat m delta).2 ≤ int32.max_int
  ∧ AskProto (AddPendingAskRepeat m delta).2 = AskProto m
  ∧ AllocatedResource (AddPendingAskRepeat m delta).2 = AllocatedResource m
  ∧ QueueName (AddPendingAskRepeat m delta).2 = QueueName m.
Proof.
  intros Hm. unfold AddPendingAskRepeat, int32.add.
  pose proof (ask_facts.int32_wrap_range (PendingRepeatAsk m + delta)) as Hr.
  unfold int32.in_range in Hr.
  destruct (Z.leb_spec 0 (int32.wrap (PendingRepeatAsk m + delta))); simpl;
    repeat split; lia || done.
Qed.

(** X2: whatever deltas are passed to [AddPendingAskRepeat], accepted or
    not, one after the other, pending repeats that start between 0 and
    the largest [int32] stay there, and the ask's proto, resource and
    queue name are never touched. *)
Theorem addRepeats_invariant deltas : ∀ m,
  0 ≤ PendingRepeatAsk m ≤ int32.max_int →
  0 ≤ PendingRepeatAsk (addRepeats m deltas) ≤ int32.max_int
  ∧ AskProto (addRepeats m deltas) = AskProto m
  ∧ AllocatedResource (addRepeats m deltas) = AllocatedResource m
  ∧ QueueName (addRepeats m deltas) = QueueName m.
Proof.
  induction deltas as [|delta deltas IH]; intros m Hm; [done|].
  unfold addRepeats in *. simpl.
  destruct (AddPendingAskRepeat_keeps m delta Hm) as (Hr & Hp & Ha & Hq).
  destruct (IH _ Hr) as (Hr' & Hp' & Ha' & Hq').
  repeat split; try apply Hr'; congruence.
Qed.

Lemma addRepeats_invariant_witness :
  0 ≤ PendingRepeatAsk (addRepeats (askWith 1) [-1; -1; 2147483647; 5])
    ≤ int32.max_int.
Proof.
  apply (addRepeats_invariant [-1; -1; 2147483647; 5] (askWith 1)).
  vm_compute. split; discriminate.
Defined.

End ask_more_facts.

(** ** Sorting: permutations, order and stability *)

Module sort_more_facts.

Import samples.

Section insertion.

Context {A : Type}.

Lemma insertBack_perm (less : A → A → bool) x rp :
  insertBack less x rp ≡ₚ x :: rp.
Proof.
  induction rp as [|y rp IH]; [done|]. simpl.
  destruct (less x y); [|done]. rewrite IH. apply Permutation_swap.
Qed.

Lemma foldl_insertBack_perm (less : A → A → bool) l : ∀ rp,
  foldl (λ rp x, insertBack less x rp) rp l ≡ₚ rp ++ l.
Proof.
  induction l as [|x l IH]; intros rp; simpl; [by rewrite app_nil_r|].
  rewrite IH, insertBack_perm. simpl. apply Permutation_middle.
Qed.

Lemma SliceStable_perm (less : A → A → bool) l : SliceStable less l ≡ₚ l.
Proof.
  unfold SliceStable. by rewrite reverse_Permutation, foldl_insertBack_perm.
Qed.

Lemma insertBack_ext (less1 less2 : A → A → bool) x rp :
  (∀ y, y ∈ rp → less1 x y = less2 x y) →
  insertBack less1 x rp = insertBack less2 x rp.
Proof.
  induction rp as [|y rp IH]; intros H; [done|]. simpl.
  rewrite (H y) by apply list_elem_of_here.
  destruct (less2 x y); [|done]. f_equal. apply IH.
  intros z Hz. apply H. by apply list_elem_of_further.
Qed.

Lemma foldl_insertBack_ext (less1 less2 : A → A → bool) l : ∀ rp,
  (∀ x y, x ∈ rp ++ l → y ∈ rp ++ l → less1 x y = less2 x y) →
  foldl (λ rp x, insertBack less1 x rp) rp l
  = foldl (λ rp x, insertBack less2 x rp) rp l.
Proof.
  induction l as [|x l IH]; intros rp H; [done|]. simpl.
  rewrite (insertBack_ext less1 less2 x rp).
  - apply IH. intros a b Ha Hb.
    assert (∀ c, c ∈ insertBack less2 x rp ++ l → c ∈ rp ++ x :: l) as Hin.
    { intros c Hc. rewrite insertBack_perm in Hc. simpl in Hc.
      by rewrite <- Permutation_middle. }
    apply H; by apply Hin.
  - intros y Hy. apply H; apply elem_of_app; [right; left|by left].
Qed.

(** Two comparisons that agree on the elements of a slice sort it alike. *)
Lemma SliceStable_ext (less1 less2 : A → A → bool) l :
  (∀ x y, x ∈ l → y ∈ l → less1 x y = less2 x y) →
  SliceStable less1 l = SliceStable less2 l.
Proof.
  intros H. unfold SliceStable. f_equal. by apply foldl_insertBack_ext.
Qed.

Lemma StronglySorted_reverse (R : relation A) l :
  StronglySorted (flip R) l → StronglySorted R (reverse l).
Proof.
  induction 1 as [|x l Hl IH Hx]; [constructor|].
  rewrite reverse_cons. apply StronglySorted_app. split; [|split].
  - intros a b Ha ->%list_elem_of_singleton.
    rewrite elem_of_reverse in Ha. rewrite Forall_forall in Hx.
    exact (Hx a Ha).
  - done.
  - repeat constructor.
Qed.

(** Sorting by a key with the comparison "smaller key". *)
Variable key : A → Z.

Lemma insertBack_sorted x rp :
  StronglySorted (λ a b, key b ≤ key a) rp →
  StronglySorted (λ a b, key b ≤ key a) (insertBack (lessByKey key) x rp).
Proof.
  induction 1 as [|y rp Hl IH Hy]; simpl; [repeat constructor|].
  unfold lessByKey at 1. destruct (Z.ltb_spec (key x) (key y)).
  - constructor; [done|]. rewrite insertBack_perm. constructor; [lia|done].
  - constructor; [by constructor|]. constructor; [done|].
    eapply Forall_impl; [exact Hy|]. simpl. intros. lia.
Qed.

Lemma foldl_insertBack_sorted l : ∀ rp,
  StronglySorted (λ a b, key b ≤ key a) rp →
  StronglySorted (λ a b, key b ≤ key a)
    (foldl (λ rp x, insertBack (lessByKey key) x rp) rp l).
Proof.
  induction l as [|x l IH]; intros rp H; [done|]. simpl.
  by apply IH, insertBack_sorted.
Qed.

Lemma SliceStable_sorted l :
  StronglySorted (λ a b, key a ≤ key b) (SliceStable (lessByKey key) l).
Proof.
  unfold SliceStable.
  apply (StronglySorted_reverse (λ a b, key a ≤ key b)).
  apply foldl_insertBack_sorted. constructor.
Qed.

Lemma insertBack_same_key t x rp :
  filter (λ a, key a = t) (insertBack (lessByKey key) x rp)
  = filter (λ a, key a = t) (x :: rp).
Proof.
  induction rp as [|y rp IH]; [done|]. simpl.
  unfold lessByKey at 1. destruct (Z.ltb_spec (key x) (key y)); [|done].
  rewrite filter_cons, IH, !filter_cons.
  repeat case_decide; try done; lia.
Qed.

Lemma foldl_insertBack_same_key t l : ∀ rp,
  filter (λ a, key a = t) (foldl (λ rp x, insertBack (lessByKey key) x rp) rp l)
  = reverse (filter (λ a, key a = t) l) ++ filter (λ a, key a = t) rp.
Proof.
  induction l as [|x l IH]; intros rp; [done|]. simpl.
  rewrite IH, insertBack_same_key, !filter_cons.
  case_decide; [|done]. by rewrite reverse_cons, <- app_assoc.
Qed.

(** Elements with equal keys keep the order they came in. *)
Lemma SliceStable_stable t l :
  filter (λ a, key a = t) (SliceStable (lessByKey key) l) = filter (λ a, key a = t) l.
Proof.
  unfold SliceStable.
  rewrite filter_reverse, foldl_insertBack_same_key.
  by rewrite app_nil_r, reverse_involutive.
Qed.

End insertion.

(** X3: [SortQueue] only reorders: for every sort type and every slice,
    also with the comparison as written, the result holds the same queues
    the same number of times; with a type other than the fair policy the
    order is unchanged as well. *)
Theorem SortQueue_permutation queues sortType :
  SortQueue queues sortType ≡ₚ queues
  ∧ length (SortQueue queues sortType) = length queues
  ∧ (sortType ≠ FairSortPolicy → SortQueue queues sortType = queues).
Proof.
  assert (SortQueue queues sortType ≡ₚ queues) as Hp.
  { unfold SortQueue. case_decide; [apply SliceStable_perm|done]. }
  split; [done|]. split; [by rewrite Hp|].
  intros Hne. unfold SortQueue. by rewrite decide_False.
Qed.

(** X4: when all queues of the slice have the same guaranteed resource,
    [SortQueue] under the fair policy sorts them by each queue's own
    ratio of proposing to guaranteed resource. *)
Theorem SortQueue_equal_guarantees queues guaranteed :
  (∀ q, q ∈ queues → cache.GuaranteedResource (CachedQueueInfo q) = guaranteed) →
  SortQueue queues FairSortPolicy
  = SliceStable (λ l r, ownRatioComp l r <? 0) queues.
Proof.
  intros Hg. unfold SortQueue. rewrite decide_True by done.
  apply SliceStable_ext. intros x y Hx Hy.
  unfold lessFairQueue, ownRatioComp. by rewrite (Hg x Hx), (Hg y Hy).
Qed.

Lemma SortQueue_equal_guarantees_witness :
  SortQueue [fairQueue "root.a" (mem 50) (mem 100);
             fairQueue "root.b" (mem 20) (mem 100)] FairSortPolicy
  = SliceStable (λ l r, ownRatioComp l r <? 0)
      [fairQueue "root.a" (mem 50) (mem 100);
       fairQueue "root.b" (mem 20) (mem 100)].
Proof.
  apply (SortQueue_equal_guarantees _ (mem 100)).
  intros q [->|[->|[]%elem_of_nil]%elem_of_cons]%elem_of_cons; reflexivity.
Defined.

(** X5: [SortApplications] under the FIFO policy returns the applications
    in ascending order of submission time, the same applications the same
    number of times, and applications submitted at the same time in the
    order they had in the input. *)
Theorem SortApplications_fifo apps globalResource :
  let time a := cacheapp.SubmissionTime (application.ApplicationInfo a) in
  let sorted := SortApplications apps FifoSortPolicy globalResource in
  StronglySorted (λ a b, time a ≤ time b) sorted
  ∧ sorted ≡ₚ apps
  ∧ ∀ t, filter (λ a, time a = t) sorted = filter (λ a, time a = t) apps.
Proof.
  simpl. unfold SortApplications.
  rewrite decide_False by done. rewrite decide_True by done.
  split; [apply SliceStable_sorted|]. split; [apply SliceStable_perm|].
  intros t. apply SliceStable_stable.
Qed.

(** X6: [SortApplications] and [SortNodes] only reorder their slice, for
    every sort type; [SortNodes] changes nothing for a type other than
    max-available-resources, and [SortApplications] nothing for that
    type. *)
Theorem SortApplications_SortNodes_permutation
    (comp : Resource → Resource → Z) apps nodes sortType globalResource :
  SortApplications apps sortType globalResource ≡ₚ apps
  ∧ SortNodes comp nodes sortType ≡ₚ nodes
  ∧ (sortType ≠ MaxAvailableResources → SortNodes comp nodes sortType = nodes)
  ∧ (sortType = MaxAvailableResources →
       SortApplications apps sortType globalResource = apps).
Proof.
  unfold SortApplications, SortNodes. repeat split.
  - repeat case_decide; try apply SliceStable_perm; done.
  - case_decide; [apply SliceStable_perm|done].
  - intros Hne. by rewrite decide_False.
  - intros ->. by rewrite !decide_False.
Qed.

End sort_more_facts.

(** ** Queues: round trips, properties, names *)

Module queue_more_facts.

Import resources_facts samples.

(** The chain of ancestors only reads the parent links. *)
Lemma ancestors_parents (st st' : store) fuel : ∀ sq,
  (∀ a, parent <$> st' !! a = parent <$> st !! a) →
  ancestors fuel st' sq = ancestors fuel st sq.
Proof.
  induction fuel as [|fuel IH]; intros sq Hp; [done|]. simpl.
  pose proof (Hp sq) as Hsq.
  destruct (st' !! sq) as [q'|], (st !! sq) as [q|]; simpl in *; try done.
  injection Hsq as ->. destruct (parent q); [|done]. by rewrite IH.
Qed.

Lemma updatePending_parents f (st st' : store) (l : list addr) :
  (∀ a, st' !! a = if decide (a ∈ l)
                   then setPendingResource f <$> st !! a else st !! a) →
  ∀ a, parent <$> st' !! a = parent <$> st !! a.
Proof.
  intros H a. rewrite H. case_decide; [|done]. by destruct (st !! a).
Qed.

(** X7: on a queue whose parent links reach the root,
    [IncPendingResource] followed by [DecPendingResource] with the same
    delta returns, and every queue of the store is as before in all its
    fields but the pending resource, which reads as before in every
    dimension. *)
Theorem pending_inc_dec_round_trip fuel (st : store) sq delta l :
  ancestors fuel st sq = Some l →
  ∃ st1 st2,
    IncPendingResource fuel st sq delta = Some st1
    ∧ DecPendingResource fuel st1 sq delta = Some st2
    ∧ ∀ a,
        match st !! a with
        | Some q =>
            ∃ pending, st2 !! a = Some (setPendingResource (λ _, pending) q)
                       ∧ ∀ k, get pending k = get (pendingResource q) k
        | None => st2 !! a = None
        end.
Proof.
  intros Hl. rewrite queue_facts.IncPendingResource_shape.
  destruct (queue_facts.updatePending_spec (λ r, Add r delta) st fuel sq l Hl)
    as (st1 & -> & Hst1).
  assert (ancestors fuel st1 sq = Some l) as Hl1.
  { rewrite <- Hl. apply ancestors_parents.
    by apply (updatePending_parents (λ r, Add r delta) st st1 l). }
  exists st1. rewrite queue_facts.DecPendingResource_shape.
  destruct (queue_facts.updatePending_spec (λ r, Sub r delta) st1 fuel sq l Hl1)
    as (st2 & -> & Hst2).
  exists st2. repeat split. intros a. rewrite Hst2, Hst1.
  destruct (st !! a) as [q|]; [|by case_decide].
  case_decide; simpl.
  - exists (Sub (Add (pendingResource q) delta) delta). split; [done|].
    intros k. rewrite get_Sub, get_Add. lia.
  - exists (pendingResource q). split; [by destruct q|done].
Qed.

Lemma pending_inc_dec_round_trip_witness :
  ∃ st1 st2 q,
    IncPendingResource 2 builtQueues.2 childAddr (mem 5) = Some st1
    ∧ DecPendingResource 2 st1 childAddr (mem 5) = Some st2
    ∧ st2 !! rootAddr = Some q
    ∧ get (pendingResource q) "memory" = 0.
Proof.
  destruct (pending_inc_dec_round_trip 2 builtQueues.2 childAddr (mem 5)
              [childAddr; rootAddr])
    as (st1 & st2 & H1 & H2 & H3); [vm_compute; reflexivity|].
  specialize (H3 rootAddr).
  destruct (builtQueues.2 !! rootAddr) as [q|] eqn:Hq; [|by vm_compute in Hq].
  destruct H3 as (pending & H3 & Hk).
  exists st1, st2, (setPendingResource (λ _, pending) q).
  repeat split; try done. simpl. rewrite Hk.
  vm_compute in Hq. by injection Hq as <-.
Defined.

Lemma foldl_properties (key : string) (prop : list (string * string)) : ∀ acc,
  foldl (λ acc kv,
           if bool_decide (kv.1 = key) && bool_decide (kv.2 = "fair"%string)
           then FairSortPolicy else acc) acc prop
  = if decide ((key, "fair"%string) ∈ prop) then FairSortPolicy else acc.
Proof.
  induction prop as [|[k v] prop IH]; intros acc; [done|]. simpl. rewrite IH.
  destruct (decide (k = key)) as [->|Hk], (decide (v = "fair"%string)) as [->|Hv].
  - rewrite !bool_decide_eq_true_2 by done. simpl.
    rewrite (decide_True (P := _ ∈ (_ :: _))) by apply list_elem_of_here.
    by case_decide.
  - rewrite (bool_decide_eq_false_2 (v = _)) by done. rewrite andb_false_r.
    repeat case_decide; try done.
    + exfalso. apply H0. by apply list_elem_of_further.
    + apply elem_of_cons in H0 as [[=]|?]; done.
  - rewrite (bool_decide_eq_false_2 (k = _)) by done. simpl.
    repeat case_decide; try done.
    + exfalso. apply H0. by apply list_elem_of_further.
    + apply elem_of_cons in H0 as [[=]|?]; done.
  - rewrite (bool_decide_eq_false_2 (k = _)) by done. simpl.
    repeat case_decide; try done.
    + exfalso. apply H0. by apply list_elem_of_further.
    + apply elem_of_cons in H0 as [[=]|?]; done.
Qed.

(** X8: [updateSchedulingQueueProperties] selects the fair application
    sort exactly when the properties hold the application sort key bound
    to "fair", and FIFO otherwise; the order in which the properties are
    visited does not matter. *)
Theorem updateSchedulingQueueProperties_fair (key : string)
    (prop prop' : list (string * string)) :
  (updateSchedulingQueueProperties key prop = FairSortPolicy
   ↔ (key, "fair"%string) ∈ prop)
  ∧ (updateSchedulingQueueProperties key prop = FifoSortPolicy
     ↔ (key, "fair"%string) ∉ prop)
  ∧ (prop ≡ₚ prop' →
     updateSchedulingQueueProperties key prop
     = updateSchedulingQueueProperties key prop').
Proof.
  unfold updateSchedulingQueueProperties. rewrite !foldl_properties.
  repeat split.
  - by case_decide.
  - by case_decide.
  - by case_decide.
  - by case_decide.
  - intros Hp. repeat case_decide; try done.
    + by rewrite Hp in H.
    + by rewrite <- Hp in H0.
Qed.

Lemma prefix_dot c s :
  String.prefix DOT (String c s) = if Ascii.ascii_dec "."%char c then true else false.
Proof.
  unfold DOT. cbn [String.prefix].
  destruct (Ascii.ascii_dec "." c); [by destruct s|done].
Qed.

Lemma LastIndexFrom_no_dot s : ∀ i,
  hasNoDot s = true → gostrings.LastIndexFrom i s DOT = -1.
Proof.
  induction s as [|c s IH]; intros i H; [done|].
  cbn [gostrings.LastIndexFrom]. rewrite prefix_dot. cbn [hasNoDot] in H.
  destruct (Ascii.ascii_dec "." c); [done|]. by rewrite IH.
Qed.

Lemma LastIndexFrom_last_dot p n : ∀ i,
  0 ≤ i → hasNoDot n = true →
  gostrings.LastIndexFrom i (p +:+ DOT +:+ n) DOT
  = i + Z.of_nat (String.length p).
Proof.
  induction p as [|c p IH]; intros i Hi Hn.
  - change ("" +:+ DOT +:+ n) with (String "." n).
    cbn [gostrings.LastIndexFrom]. rewrite LastIndexFrom_no_dot by done.
    rewrite prefix_dot. destruct (Ascii.ascii_dec "." "."); [|done].
    change (0 <=? -1) with false. cbn [String.length]. lia.
  - change (String c p +:+ DOT +:+ n) with (String c (p +:+ DOT +:+ n)).
    cbn [gostrings.LastIndexFrom]. rewrite IH by (done || lia).
    destruct (Z.leb_spec 0 (i + 1 + Z.of_nat (String.length p)));
      cbn [String.length]; lia.
Qed.

Lemma sliceFrom_app p s :
  gostrings.sliceFrom (String.length p) (p +:+ s) = s.
Proof. induction p as [|c p IH]; [by destruct s|done]. Qed.

(** A string has no dot, or it ends in a dot followed by a part without. *)
Lemma last_dot_split s :
  hasNoDot s = true ∨ ∃ p n, s = p +:+ DOT +:+ n ∧ hasNoDot n = true.
Proof.
  induction s as [|c s IH]; [by left|].
  destruct IH as [Hs|(p & n & -> & Hn)].
  - cbn [hasNoDot]. destruct (Ascii.ascii_dec "." c) as [<-|]; [|by left].
    right. by exists ""%string, s.
  - right. by exists (String c p), n.
Qed.

Lemma leafName_of_path p n :
  hasNoDot n = true → leafName (p +:+ DOT +:+ n) = n.
Proof.
  intros Hn. unfold leafName, gostrings.LastIndex.
  rewrite LastIndexFrom_last_dot by done.
  replace (Z.to_nat (0 + Z.of_nat (String.length p) + 1))
    with (S (String.length p)) by lia.
  clear. induction p as [|c p IH]; [done|]. exact IH.
Qed.

(** X9: the key [NewSchedulingQueueInfo] registers a queue under is the
    part of its path after the last dot: for a path that joins a parent
    path and a name without dot by a dot it is that name, for a path
    without dot it is the whole path, and in every case it holds no dot. *)
Theorem leafName_round_trip :
  (∀ p n, hasNoDot n = true → leafName (p +:+ DOT +:+ n) = n)
  ∧ (∀ s, hasNoDot s = true → leafName s = s)
  ∧ (∀ s, hasNoDot (leafName s) = true).
Proof.
  assert (∀ s, hasNoDot s = true → leafName s = s) as Hwhole.
  { intros s Hs. unfold leafName, gostrings.LastIndex.
    by rewrite LastIndexFrom_no_dot. }
  split; [apply leafName_of_path|]. split; [done|].
  intros s. destruct (last_dot_split s) as [Hs|(p & n & -> & Hn)].
  - by rewrite Hwhole.
  - by rewrite leafName_of_path.
Qed.

Lemma alter_pending_parents f (st : store) sq a :
  parent <$> alter (setPendingResource f) sq st !! a = parent <$> st !! a.
Proof.
  rewrite lookup_alter. case_decide; [|done]. subst. by destruct (st !! a).
Qed.

(** X10: [RemoveSchedulingApplication] on a queue of the store.  With a
    zero pending resource of the application only its id leaves the
    queue.  Otherwise, with a nil parent the call fails on the nil
    dereference; with a parent whose links reach the root, the pending
    resource is subtracted once from the queue and once from every
    ancestor, the id leaves the queue, and every other queue is
    unchanged. *)
Theorem RemoveSchedulingApplication_effect fuel (st : store) sq q app :
  st !! sq = Some q →
  let appId := cacheapp.ApplicationId (application.ApplicationInfo app) in
  let total := application.Requests app in
  (IsZero total = true →
     RemoveSchedulingApplication fuel st sq app
     = Some (Returns (alter (setApplications (λ apps, apps ∖ {[appId]})) sq st)))
  ∧ (IsZero total = false → parent q = None →
       RemoveSchedulingApplication fuel st sq app = Some Panics)
  ∧ (∀ p l,
       IsZero total = false → parent q = Some p →
       ancestors fuel st p = Some l →
       ∃ st', RemoveSchedulingApplication fuel st sq app = Some (Returns st')
              ∧ st' !! sq
                = Some (setApplications (λ apps, apps ∖ {[appId]})
                          (setPendingResource (λ r, Sub r total) q))
              ∧ (∀ a, a ∈ l →
                   st' !! a = setPendingResource (λ r, Sub r total) <$> st !! a)
              ∧ (∀ a, a ≠ sq → a ∉ l → st' !! a = st !! a)).
Proof.
  intros Hq appId total. unfold RemoveSchedulingApplication.
  fold appId. fold total. rewrite Hq. split; [|split].
  - by intros ->.
  - by intros -> ->.
  - intros p l -> Hp Hl. rewrite Hp. simpl.
    assert (sq ∉ l) as Hnotin.
    { apply (queue_facts.ancestors_acyclic st (S fuel)). simpl.
      rewrite Hq. simpl. by rewrite Hp, Hl. }
    set (st1 := alter (setPendingResource (λ r, Sub r total)) sq st).
    assert (ancestors fuel st1 p = Some l) as Hl1.
    { rewrite <- Hl. apply ancestors_parents. intros a.
      apply alter_pending_parents. }
    rewrite queue_facts.DecPendingResource_shape.
    destruct (queue_facts.updatePending_spec (λ r, Sub r total) st1 fuel p l Hl1)
      as (st2 & -> & Hst2). simpl.
    eexists. split; [done|]. split; [|split].
    + rewrite lookup_alter_eq, Hst2, decide_False by done.
      unfold st1. by rewrite lookup_alter_eq, Hq.
    + intros a Ha. assert (a ≠ sq) by (by intros ->).
      rewrite lookup_alter_ne, Hst2, decide_True by done.
      unfold st1. by rewrite lookup_alter_ne.
    + intros a Hne Ha.
      rewrite lookup_alter_ne, Hst2, decide_False by done.
      unfold st1. by rewrite lookup_alter_ne.
Qed.

Lemma RemoveSchedulingApplication_effect_witness :
  ∃ st' root,
    RemoveSchedulingApplication 1 builtQueues.2 childAddr pendingApp
    = Some (Returns st')
    ∧ st' !! rootAddr = Some root
    ∧ get (pendingResource root) "memory" = -7.
Proof.
  destruct (builtQueues.2 !! childAddr) as [q|] eqn:Hq; [|by vm_compute in Hq].
  destruct (proj2 (proj2 (RemoveSchedulingApplication_effect
                            1 builtQueues.2 childAddr q pendingApp Hq))
              rootAddr [rootAddr])
    as (st' & Hrm & _ & Hon & _).
  - vm_compute. reflexivity.
  - vm_compute in Hq. by injection Hq as <-.
  - vm_compute. reflexivity.
  - exists st'. eexists. split; [exact Hrm|].
    rewrite (Hon rootAddr) by apply list_elem_of_here.
    vm_compute. split; reflexivity.
Defined.

Lemma NewSchedulingQueueInfo_unfold key cq par (st : store) :
  NewSchedulingQueueInfo key cq par st =
    let a := fresh (dom st) in
    let sq := {| Name := cache.GetQueuePath cq;
                 CachedQueueInfo := cq;
                 ProposingResource := NewResource;
                 PartitionResource := Zero;
                 ApplicationSortType :=
                   updateSchedulingQueueProperties key (cache.Properties cq);
                 QueueSortType := FairSortPolicy;
                 childrenQueues := ∅;
                 applications := ∅;
                 parent := par;
                 allocatingResource := Zero;
                 pendingResource := NewResource |} in
    let st1 := <[a := sq]> st in
    let st2 :=
      match par with
      | Some p => alter (setChildrenQueues <[leafName (Name sq) := a]>) p st1
      | None => st1
      end in
    (a, registerChildren (NewSchedulingQueueInfo key) a
          (cache.GetCopyOfChildren cq) st2).
Proof.
  destruct cq as [path managed state leaf guaranteed props children].
  cbn [NewSchedulingQueueInfo]. cbv zeta. f_equal.
  unfold cache.GetCopyOfChildren. cbn [cache.Children].
  match goal with
  | |- _ = registerChildren _ _ _ ?s => generalize s
  end.
  induction children as [|[n c] children IH]; intros s; [done|].
  cbn [registerChildren].
  destruct (NewSchedulingQueueInfo key c (Some (fresh (dom st))) s). apply IH.
Qed.

Lemma setChildrenQueues_twice x y q :
  setChildrenQueues (λ _, x) (setChildrenQueues (λ _, y) q)
  = setChildrenQueues (λ _, x) q.
Proof. done. Qed.

Lemma built_trans par (st s1 s2 : store) :
  built par st s1 → built par s1 s2 → built par st s2.
Proof.
  intros H1 H2 b q Hq.
  destruct (H1 b q Hq) as (q1 & Hq1 & Hc1 & Hsame1).
  destruct (H2 b q1 Hq1) as (q2 & Hq2 & Hc2 & Hsame2).
  exists q2. split; [done|]. split.
  - rewrite Hc2, Hc1. by rewrite setChildrenQueues_twice.
  - intros Hne. by rewrite Hsame2, Hsame1.
Qed.

Lemma built_alter a f (st : store) :
  built (Some a) st (alter (setChildrenQueues f) a st).
Proof.
  intros b q Hq. destruct (decide (a = b)) as [->|Hne].
  - exists (setChildrenQueues f q).
    rewrite lookup_alter_eq, Hq. split; [done|]. split; [done|].
    by intros [].
  - exists q. rewrite lookup_alter_ne, Hq by done.
    split; [done|]. split; [by destruct q|done].
Qed.

Lemma built_other par (st st' : store) b q :
  built par st st' → st !! b = Some q → par ≠ Some b →
  st' !! b = Some q.
Proof.
  intros H Hq Hne. destruct (H b q Hq) as (q' & Hq' & _ & Hsame).
  by rewrite Hq', Hsame.
Qed.

Lemma registerChildren_built key a l : ∀ st : store,
  is_Some (st !! a) →
  Forall (λ nc, buildsWell key nc.2) l →
  built (Some a) st (registerChildren (NewSchedulingQueueInfo key) a l st).
Proof.
  induction l as [|[n c] l IH]; intros st Ha Hl.
  { intros b q Hq. exists q. split; [done|]. split; [by destruct q|done]. }
  apply Forall_cons in Hl as [Hc Hl]. cbn [registerChildren].
  assert (∀ p, Some a = Some p → is_Some (st !! p)) as Hpar.
  { by intros p [= <-]. }
  cbn [snd] in Hc.
  pose proof (Hc (Some a) st Hpar) as Hchild. cbv zeta in Hchild.
  destruct (NewSchedulingQueueInfo key c (Some a) st) as [c' st'].
  cbn [fst snd] in Hchild. destruct Hchild as (Hfresh & _ & _ & Hbuilt).
  apply (built_trans _ _ st'); [exact Hbuilt|].
  apply (built_trans _ _ (alter (setChildrenQueues <[n := c']>) a st'));
    [apply built_alter|].
  apply IH; [|done].
  destruct Ha as [qa Hqa]. destruct (Hbuilt a qa Hqa) as (qa' & Hqa' & _).
  rewrite lookup_alter_eq, Hqa'. by eexists.
Qed.

Lemma NewSchedulingQueueInfo_buildsWell key cq : buildsWell key cq.
Proof.
  induction cq as [cq IH] using QueueInfo_tree_ind.
  intros par st Hpar. rewrite NewSchedulingQueueInfo_unfold. cbv zeta.
  cbn [fst snd].
  set (a := fresh (dom st)).
  set (sq := mkSchedulingQueue _ _ _ _ _ _ _ _ _ _ _).
  assert (st !! a = None) as Hfresh.
  { apply not_elem_of_dom. apply is_fresh. }
  set (st2 := match par with
              | Some p => alter (setChildrenQueues <[leafName (Name sq) := a]>) p
                            (<[a := sq]> st)
              | None => <[a := sq]> st
              end).
  assert (st2 !! a = Some sq) as Ha2.
  { unfold st2. destruct par as [p|]; [|by rewrite lookup_insert_eq].
    destruct (Hpar p eq_refl) as [pq Hpq].
    assert (p ≠ a) by (intros ->; congruence).
    by rewrite lookup_alter_ne, lookup_insert_eq. }
  assert (∀ b q, st !! b = Some q →
            st2 !! b = Some (if decide (par = Some b)
                             then setChildrenQueues <[leafName (Name sq) := a]> q
                             else q)) as Hst2.
  { intros b q Hq. assert (b ≠ a) by (intros ->; congruence).
    unfold st2. destruct par as [p|].
    - rewrite lookup_alter. destruct (decide (p = b)) as [->|Hne].
      + rewrite lookup_insert_ne, Hq by done. by rewrite decide_True.
      + rewrite lookup_insert_ne, Hq by done.
        rewrite decide_False; [done|congruence].
    - rewrite lookup_insert_ne by done. by rewrite decide_False. }
  pose proof (registerChildren_built key a (cache.GetCopyOfChildren cq) st2
                (ex_intro _ sq Ha2) IH) as Hloop.
  split; [done|]. split; [|split].
  - destruct (Hloop a sq Ha2) as (q' & -> & Hq' & _).
    exists (childrenQueues q'). by rewrite Hq' at 1.
  - intros p pq -> Hpq. assert (p ≠ a) by (intros ->; congruence).
    pose proof (Hst2 p pq Hpq) as Hp2. rewrite decide_True in Hp2 by done.
    apply (built_other (Some a) st2 _ p _ Hloop Hp2). congruence.
  - intros b q Hq. assert (b ≠ a) by (intros ->; congruence).
    pose proof (Hst2 b q Hq) as Hb2.
    rewrite (built_other (Some a) st2 _ b _ Hloop Hb2) by congruence.
    eexists. split; [done|]. case_decide.
    + split; [done|]. intros Hne. done.
    + split; [by destruct q|done].
Qed.

(** X11: [NewSchedulingQueueInfo] under a parent that is in the store (or
    under no parent) returns an address that was free; the queue at that
    address carries the cached path, the cached queue, the given parent,
    no applications and empty pending and proposing resources; the parent
    maps the leaf name of the path to the new address and is otherwise as
    before; and every other queue that existed is unchanged. *)
Theorem NewSchedulingQueueInfo_effect key cq par (st : store) :
  (∀ p, par = Some p → is_Some (st !! p)) →
  let a := (NewSchedulingQueueInfo key cq par st).1 in
  let st' := (NewSchedulingQueueInfo key cq par st).2 in
  st !! a = None
  ∧ (∃ q, st' !! a = Some q
          ∧ Name q = cache.GetQueuePath cq ∧ CachedQueueInfo q = cq
          ∧ parent q = par ∧ applications q = ∅
          ∧ pendingResource q = ∅ ∧ ProposingResource q = ∅
          ∧ QueueSortType q = FairSortPolicy)
  ∧ (∀ p pq, par = Some p → st !! p = Some pq →
       st' !! p
       = Some (setChildrenQueues <[leafName (cache.GetQueuePath cq) := a]> pq))
  ∧ (∀ b q, st !! b = Some q → par ≠ Some b → st' !! b = Some q).
Proof.
  intros Hpar.
  destruct (NewSchedulingQueueInfo_buildsWell key cq par st Hpar)
    as (Hfresh & [children Hnew] & Hparent & Hbuilt).
  split; [done|]. split; [|split; [done|]].
  - eexists. split; [exact Hnew|]. done.
  - intros b q Hq Hne. by apply (built_other par st _ b q Hbuilt).
Qed.

Lemma NewSchedulingQueueInfo_effect_witness :
  let r := NewSchedulingQueueInfo "application.sort.policy" cachedA
             (Some rootAddr) builtQueues.2 in
  builtQueues.2 !! r.1 = None
  ∧ (r.2 !! rootAddr ≫= λ q, childrenQueues q !! "a"%string) = Some r.1.
Proof.
  destruct (builtQueues.2 !! rootAddr) as [pq|] eqn:Hpq;
    [|by vm_compute in Hpq].
  destruct (NewSchedulingQueueInfo_effect "application.sort.policy" cachedA
              (Some rootAddr) builtQueues.2)
    as (Hfresh & _ & Hparent & _).
  - intros p [= <-]. rewrite Hpq. by eexists.
  - split; [exact Hfresh|].
    rewrite (Hparent rootAddr pq eq_refl Hpq). simpl.
    change (leafName (cache.GetQueuePath cachedA)) with "a"%string.
    by rewrite lookup_insert_eq.
Defined.

End queue_more_facts.

(** ** Crediting a victim against the shortages *)

Module headroom_more_facts.

Import preemption resources_facts headroom_facts samples.

(** One step of the walk: the entry of the current queue after the credit,
    and whether the credit made it smaller. *)
Lemma headroomShortageWalk_unfold r c b (hs : gmap string Resource) :
  headroomShortageWalk r c b hs =
    let step :=
      match hs !! queuePath c with
      | Some s =>
          if StrictlyGreaterThan s (SubEliminateNegative s r)
          then (true,
                if StrictlyGreaterThanZero (SubEliminateNegative s r)
                then <[queuePath c := SubEliminateNegative s r]> hs
                else delete (queuePath c) hs)
          else (b, hs)
      | None => (b, hs)
      end in
    match parent c with
    | Some p => headroomShortageWalk r p step.1 step.2
    | None => step
    end.
Proof.
  destruct c as [qp res sq par]. cbn [headroomShortageWalk queuePath parent].
  destruct (hs !! qp) as [s|]; [|by destruct par].
  destruct (StrictlyGreaterThan s (SubEliminateNegative s r)); by destruct par.
Qed.

Lemma walk_step_lookup r c b (hs : gmap string Resource) p :
  (match hs !! queuePath c with
   | Some s =>
       if StrictlyGreaterThan s (SubEliminateNegative s r)
       then (true,
             if StrictlyGreaterThanZero (SubEliminateNegative s r)
             then <[queuePath c := SubEliminateNegative s r]> hs
             else delete (queuePath c) hs)
       else (b, hs)
   | None => (b, hs)
   end).2 !! p
  = if decide (p = queuePath c) then credited r (hs !! p) else hs !! p.
Proof.
  destruct (decide (p = queuePath c)) as [->|Hne]; unfold credited.
  - destruct (hs !! queuePath c) as [s|] eqn:E; [|done].
    destruct (StrictlyGreaterThan s _); [|done]. simpl.
    destruct (StrictlyGreaterThanZero _);
      [by rewrite lookup_insert_eq|by rewrite lookup_delete_eq].
  - destruct (hs !! queuePath c) as [s|] eqn:E; [|done].
    destruct (StrictlyGreaterThan s _); [|done]. simpl.
    destruct (StrictlyGreaterThanZero _);
      [by rewrite lookup_insert_ne|by rewrite lookup_delete_ne].
Qed.

Lemma walk_step_flag r c b (hs : gmap string Resource) :
  (match hs !! queuePath c with
   | Some s =>
       if StrictlyGreaterThan s (SubEliminateNegative s r)
       then (true,
             if StrictlyGreaterThanZero (SubEliminateNegative s r)
             then <[queuePath c := SubEliminateNegative s r]> hs
             else delete (queuePath c) hs)
       else (b, hs)
   | None => (b, hs)
   end).1
  = b || creditable r (hs !! queuePath c).
Proof.
  unfold creditable. destruct (hs !! queuePath c) as [s|]; [|by destruct b].
  destruct (StrictlyGreaterThan s _); by destruct b.
Qed.

(** Entries of queues off the walk are left alone. *)
Lemma walk_off r c : ∀ b (hs : gmap string Resource) p,
  p ∉ queuePath <$> ancestry c →
  (headroomShortageWalk r c b hs).2 !! p = hs !! p.
Proof.
  induction c as [c Hc|c par Hc IH] using context_ind; intros b hs p Hp;
    rewrite headroomShortageWalk_unfold; cbv zeta;
    rewrite ancestry_unfold, Hc in Hp; rewrite Hc;
    cbn [fmap list_fmap] in Hp; apply not_elem_of_cons in Hp as [Hne Hp].
  - by rewrite walk_step_lookup, decide_False.
  - by rewrite IH, walk_step_lookup, decide_False.
Qed.

(** The entry of a queue on the walk is credited once. *)
Lemma walk_on r c : ∀ b (hs : gmap string Resource) x,
  NoDup (queuePath <$> ancestry c) → x ∈ ancestry c →
  (headroomShortageWalk r c b hs).2 !! queuePath x
  = credited r (hs !! queuePath x).
Proof.
  induction c as [c Hc|c par Hc IH] using context_ind; intros b hs x Hnd Hx;
    rewrite headroomShortageWalk_unfold; cbv zeta;
    rewrite ancestry_unfold, Hc in Hnd, Hx; rewrite Hc;
    cbn [fmap list_fmap] in Hnd; apply NoDup_cons in Hnd as [Hnotin Hnd];
    apply elem_of_cons in Hx as [->|Hx].
  - by rewrite walk_step_lookup, decide_True.
  - by apply elem_of_nil in Hx.
  - by rewrite walk_off, walk_step_lookup, decide_True.
  - assert (queuePath x ≠ queuePath c) as Hne.
    { intros Heq. apply Hnotin. rewrite <- Heq. by apply list_elem_of_fmap_2. }
    by rewrite IH, walk_step_lookup, decide_False.
Qed.

Lemma existsb_agree {A} (f g : A → bool) (l : list A) :
  (∀ x, x ∈ l → f x = g x) → existsb f l = existsb g l.
Proof.
  induction l as [|x l IH]; intros H; [done|]. cbn [existsb].
  rewrite (H x) by apply list_elem_of_here. f_equal. apply IH.
  intros y Hy. apply H. by apply list_elem_of_further.
Qed.

(** The flag is raised exactly by a creditable entry on the walk. *)
Lemma walk_flag r c : ∀ b (hs : gmap string Resource),
  NoDup (queuePath <$> ancestry c) →
  (headroomShortageWalk r c b hs).1
  = b || existsb (λ x, creditable r (hs !! queuePath x)) (ancestry c).
Proof.
  induction c as [c Hc|c par Hc IH] using context_ind; intros b hs Hnd;
    rewrite headroomShortageWalk_unfold; cbv zeta;
    rewrite (ancestry_unfold c), Hc in Hnd |- *;
    cbn [fmap list_fmap] in Hnd; apply NoDup_cons in Hnd as [Hnotin Hnd];
    cbn [existsb].
  - by rewrite walk_step_flag, orb_false_r.
  - rewrite IH, walk_step_flag by done. rewrite <- orb_assoc. do 2 f_equal.
    apply existsb_agree. intros y Hy.
    rewrite walk_step_lookup, decide_False; [done|].
    intros Heq. apply Hnotin. rewrite <- Heq. by apply list_elem_of_fmap_2.
Qed.

Lemma credited_shrinks r s s' :
  credited r (Some s) = Some s' →
  (∀ k, get s' k ≤ get s k)
  ∧ (StrictlyGreaterThanZero s = true → StrictlyGreaterThanZero s' = true).
Proof.
  unfold credited.
  destruct (StrictlyGreaterThan s _) eqn:Hgt; [|by intros [= <-]].
  destruct (StrictlyGreaterThanZero _) eqn:Hpos; [|done]. intros [= <-].
  apply StrictlyGreaterThan_spec in Hgt as [Hle _]. by split.
Qed.

Lemma walk_shrinks r c : ∀ b (hs : gmap string Resource),
  (∀ p s', (headroomShortageWalk r c b hs).2 !! p = Some s' →
     ∃ s, hs !! p = Some s ∧ ∀ k, get s' k ≤ get s k)
  ∧ ((∀ p s, hs !! p = Some s → StrictlyGreaterThanZero s = true) →
     ∀ p s', (headroomShortageWalk r c b hs).2 !! p = Some s' →
       StrictlyGreaterThanZero s' = true).
Proof.
  assert (∀ (c : preemptionQueueContext) (b : bool)
            (hs step : gmap string Resource),
            (∀ p, step !! p
                  = if decide (p = queuePath c) then credited r (hs !! p)
                    else hs !! p) →
            (∀ p s', step !! p = Some s' →
               ∃ s, hs !! p = Some s ∧ ∀ k, get s' k ≤ get s k)
            ∧ ((∀ p s, hs !! p = Some s → StrictlyGreaterThanZero s = true) →
               ∀ p s', step !! p = Some s' →
                 StrictlyGreaterThanZero s' = true)) as Hstep.
  { intros c0 b0 hs0 step Hlook. split.
    - intros p s'. rewrite Hlook. case_decide; [|by exists s'].
      destruct (hs0 !! p) as [s|] eqn:E; [|done]. intros Hc.
      exists s. split; [done|]. by apply (credited_shrinks r).
    - intros Hpos p s'. rewrite Hlook. case_decide; [|apply Hpos].
      destruct (hs0 !! p) as [s|] eqn:E; [|done]. intros Hc.
      apply (credited_shrinks r s s' Hc). by apply (Hpos p). }
  induction c as [c Hc|c par Hc IH] using context_ind; intros b hs;
    rewrite headroomShortageWalk_unfold; cbv zeta; rewrite Hc.
  - apply (Hstep c b). intros p. apply walk_step_lookup.
  - destruct (Hstep c b hs _ (walk_step_lookup r c b hs)) as [Hs1 Hp1].
    match goal with
    | |- context [headroomShortageWalk r par ?b1 ?hs1] =>
        destruct (IH b1 hs1) as [Hs2 Hp2]
    end.
    split.
    + intros p s2 H2. destruct (Hs2 p s2 H2) as (s1 & H1 & Hle2).
      destruct (Hs1 p s1 H1) as (s & H0 & Hle1).
      exists s. split; [done|]. intros k. specialize (Hle1 k).
      specialize (Hle2 k). lia.
    + intros Hpos. apply Hp2. by apply Hp1.
Qed.

(** X12: [headroomShortageUpdate] never adds an entry to the shortage map
    and never raises one: every entry left is, in every dimension, at most
    the entry the path had before.  Entries of queues that are not on the
    chain from the victim's queue to the root are unchanged.  And when all
    entries were greater than zero in some dimension, so are all entries
    left. *)
Theorem headroomShortageUpdate_shrinks preemptor preemptee r
    (hs : gmap string Resource) :
  let after := (headroomShortageUpdate preemptor preemptee r hs).2 in
  (∀ p s', after !! p = Some s' →
     ∃ s, hs !! p = Some s ∧ ∀ k, get s' k ≤ get s k)
  ∧ (∀ p, p ∉ queuePath <$> ancestry preemptee → after !! p = hs !! p)
  ∧ ((∀ p s, hs !! p = Some s → StrictlyGreaterThanZero s = true) →
     ∀ p s', after !! p = Some s' → StrictlyGreaterThanZero s' = true).
Proof.
  cbv zeta. unfold headroomShortageUpdate. case_bool_decide; cbn [snd].
  - split; [|split]; [|done|by intros Hpos].
    intros p s' Hs'. by exists s'.
  - destruct (walk_shrinks r preemptee false hs) as [Hs Hp].
    split; [done|]. split; [|done]. intros p Hp'. by apply walk_off.
Qed.

Lemma creditable_iff r s :
  (∀ k, 0 ≤ get s k) → (∀ k, 0 ≤ get r k) →
  creditable r (Some s) = true ↔ ∃ k, 0 < get s k ∧ 0 < get r k.
Proof.
  intros Hs Hr. unfold creditable. rewrite StrictlyGreaterThan_spec. split.
  - intros [_ [k Hk]]. exists k. rewrite get_SubEliminateNegative in Hk.
    specialize (Hs k). specialize (Hr k). lia.
  - intros [k [Hk1 Hk2]]. split.
    + intros k'. rewrite get_SubEliminateNegative.
      specialize (Hs k'). specialize (Hr k'). lia.
    + exists k. rewrite get_SubEliminateNegative. lia.
Qed.

(** X13: for a victim queue whose chain of ancestors carries pairwise
    distinct paths, shortages that are not negative and an allocation
    resource that is not negative, [headroomShortageUpdate] returns true
    exactly when some queue on the chain has an entry with a shortage in a
    dimension in which the allocation has a quantity; and when it returns
    false the shortage map is unchanged. *)
Theorem headroomShortageUpdate_contributes preemptor preemptee r
    (hs : gmap string Resource) :
  NoDup (queuePath <$> ancestry preemptee) →
  (∀ p s k, hs !! p = Some s → 0 ≤ get s k) →
  (∀ k, 0 ≤ get r k) →
  ((headroomShortageUpdate preemptor preemptee r hs).1 = true
   ↔ ∃ x s k, x ∈ ancestry preemptee ∧ hs !! queuePath x = Some s
              ∧ 0 < get s k ∧ 0 < get r k)
  ∧ ((headroomShortageUpdate preemptor preemptee r hs).1 = false →
     (headroomShortageUpdate preemptor preemptee r hs).2 = hs).
Proof.
  intros Hnd Hs Hr. unfold headroomShortageUpdate. case_bool_decide as Hsize.
  - apply map_size_empty_iff in Hsize as ->. split; [|done]. split; [done|].
    intros (x & s & k & _ & Hl & _). by rewrite lookup_empty in Hl.
  - rewrite walk_flag by done. cbn [orb]. split.
    + rewrite existsb_exists. split.
      * intros (x & Hx & Hc). apply list_elem_of_In in Hx.
        destruct (hs !! queuePath x) as [s|] eqn:E; [|done].
        apply creditable_iff in Hc as (k & Hk1 & Hk2);
          [|intros k; by apply (Hs (queuePath x))|done].
        by exists x, s, k.
      * intros (x & s & k & Hx & Hl & Hk1 & Hk2). exists x.
        split; [by apply list_elem_of_In|]. rewrite Hl.
        apply creditable_iff; [intros k'; by apply (Hs (queuePath x))|done|].
        by exists k.
    + intros Hnone. apply map_eq. intros p.
      destruct (decide (p ∈ queuePath <$> ancestry preemptee)) as [Hin|Hout];
        [|by apply walk_off].
      apply list_elem_of_fmap in Hin as (x & -> & Hx).
      rewrite walk_on by done.
      assert (creditable r (hs !! queuePath x) = false) as Hc.
      { destruct (creditable r (hs !! queuePath x)) eqn:E; [|done].
        rewrite <- Hnone. symmetry. apply existsb_exists. exists x.
        split; [by apply list_elem_of_In|done]. }
      unfold credited, creditable in *.
      destruct (hs !! queuePath x) as [s|]; [|done]. by rewrite Hc.
Qed.

Lemma headroomShortageUpdate_contributes_witness :
  (headroomShortageUpdate highCtx highCtx (mem 5)
     {[ "root.high"%string := mem 10 ]}).1 = true.
Proof.
  assert (∀ n k, 0 ≤ n → 0 ≤ get (mem n) k) as Hmem.
  { intros n k Hn. unfold get, mem.
    destruct (decide ("memory"%string = k)) as [<-|Hne].
    - by rewrite lookup_singleton_eq.
    - by rewrite lookup_singleton_ne. }
  destruct (headroomShortageUpdate_contributes highCtx highCtx (mem 5)
              {[ "root.high"%string := mem 10 ]}) as [[_ Hback] _].
  - apply (bool_decide_unpack _). vm_compute. exact I.
  - intros p s k [_ <-]%lookup_singleton_Some. by apply Hmem.
  - intros k. by apply Hmem.
  - apply Hback. exists highCtx, (mem 10), "memory"%string. repeat split.
    apply list_elem_of_here.
Defined.

End headroom_more_facts.

(** ** Victims, proposals and the choice of the node *)

Module proposal_facts.

Import preemption resources_facts samples.

Lemma releasedSet_keeps_keys vs : ∀ (start : gmap string cache.AllocationInfo) u,
  is_Some (start !! u) → is_Some (releasedSet start vs !! u).
Proof.
  induction vs as [|a vs IH]; intros start u Hu; [done|].
  apply IH. destruct (decide (cache.Uuid a = u)) as [<-|Hne].
  - rewrite lookup_insert_eq. by eexists.
  - by rewrite lookup_insert_ne.
Qed.

Lemma releasedSet_lookup vs : ∀ (start : gmap string cache.AllocationInfo) u a,
  releasedSet start vs !! u = Some a →
  start !! u = Some a ∨ (a ∈ vs ∧ cache.Uuid a = u).
Proof.
  induction vs as [|x vs IH]; intros start u a Hu; [by left|].
  destruct (IH _ _ _ Hu) as [Hstart|[Hin Hid]].
  - destruct (decide (cache.Uuid x = u)) as [<-|Hne].
    + rewrite lookup_insert_eq in Hstart. injection Hstart as <-.
      right. split; [apply list_elem_of_here|done].
    + rewrite lookup_insert_ne in Hstart by done. by left.
  - right. split; [by apply list_elem_of_further|done].
Qed.

Lemma victimsOf_elem ctx candidate allocs a :
  a ∈ victimsOf ctx candidate allocs →
  a ∈ allocs
  ∧ ∃ q, leafQueues ctx !! cache.QueueName a = Some q
         ∧ skipsQueue ctx candidate q = false.
Proof.
  unfold victimsOf. rewrite list_elem_of_In, filter_In, <- list_elem_of_In.
  intros [Hin Hv]. split; [done|]. unfold isVictim in Hv.
  destruct (leafQueues ctx !! cache.QueueName a) as [q|]; [|done].
  exists q. split; [done|]. by apply negb_true_iff.
Qed.

(** X14: when the ask does not fit the node and
    [trySurgicalPreemptionOnNode] returns a result, every entry of the
    release set is an allocation of the node, entered under its own uuid,
    whose queue is a known leaf queue that was not skipped; the release
    set is not empty; and the released total is the total of the first
    victims in the order of the walk, none of the shorter runs having
    reached the amount to preempt. *)
Theorem trySurgicalPreemptionOnNode_victims
    (CheckAndAllocateResource : SchedulingNode → Resource → bool → bool * SchedulingNode)
    ctx preemptorQueue candidate node hs r :
  (CheckAndAllocateResource node (AllocatedResource candidate) true).1 = false →
  (trySurgicalPreemptionOnNode CheckAndAllocateResource ctx preemptorQueue
     node candidate hs).1 = Some r →
  let allocs :=
    GetAllAllocations
      (CheckAndAllocateResource node (AllocatedResource candidate) true).2 in
  (∀ u a, toReleaseAllocations r !! u = Some a →
     cache.Uuid a = u ∧ a ∈ allocs
     ∧ ∃ q, leafQueues ctx !! cache.QueueName a = Some q
            ∧ skipsQueue ctx candidate q = false)
  ∧ toReleaseAllocations r ≠ ∅
  ∧ ∃ n, totalReleasedResource r
         = releasedTotal NewResource (take (S n) (victimsOf ctx candidate allocs))
         ∧ ∀ m, (m < n)%nat →
             StrictlyGreaterThanOrEquals
               (releasedTotal NewResource
                  (take (S m) (victimsOf ctx candidate allocs)))
               (resourceToPreemptOf node candidate) = false.
Proof.
  intros Hfit Hres. cbv zeta.
  pose proof (surgical_facts.surgicalWalk_spec ctx preemptorQueue candidate
                (CheckAndAllocateResource node (AllocatedResource candidate) true).2
                (resourceToPreemptOf node candidate)
                (GetAllAllocations
                   (CheckAndAllocateResource node (AllocatedResource candidate)
                      true).2)
                ∅ NewResource hs) as Hwalk.
  unfold trySurgicalPreemptionOnNode in Hres.
  destruct (CheckAndAllocateResource node (AllocatedResource candidate) true)
    as [fits node']. simpl in Hfit. subst fits. cbn [snd] in *.
  rewrite Hres in Hwalk.
  destruct Hwalk as (n & Hn & Htot & Hset & _ & Hmin).
  split; [|split].
  - intros u a Hu. rewrite Hset in Hu.
    apply releasedSet_lookup in Hu as [Hu|[Hin Hid]];
      [by rewrite lookup_empty in Hu|].
    split; [done|]. apply (victimsOf_elem ctx candidate).
    apply elem_of_take in Hin. destruct Hin as (i & Hi & _).
    by apply list_elem_of_lookup_2 in Hi.
  - rewrite Hset.
    destruct (victimsOf ctx candidate (GetAllAllocations node')) as [|v vs];
      [simpl in Hn; lia|].
    cbn [take]. unfold releasedSet. cbn [foldl].
    intros Hempty.
    destruct (releasedSet_keeps_keys (take n vs)
                (<[cache.Uuid v := v]> ∅) (cache.Uuid v)) as [x Hx].
    { rewrite lookup_insert_eq. by eexists. }
    unfold releasedSet in Hx. by rewrite Hempty, lookup_empty in Hx.
  - by exists n.
Qed.

Lemma trySurgicalPreemptionOnNode_victims_witness :
  ∃ r, (trySurgicalPreemptionOnNode fitCheck partitionCtx highCtx fullNode
          highAsk ∅).1 = Some r
       ∧ toReleaseAllocations r ≠ ∅.
Proof.
  destruct (trySurgicalPreemptionOnNode fitCheck partitionCtx highCtx fullNode
              highAsk ∅).1 as [r|] eqn:Hr; [|by vm_compute in Hr].
  exists r. split; [done|].
  refine (proj1 (proj2 (trySurgicalPreemptionOnNode_victims fitCheck
                          partitionCtx highCtx highAsk fullNode ∅ r _ Hr))).
  vm_compute. reflexivity.
Defined.

(** The marks a list of victims leaves on the leaf queues. *)
Lemma markPreempted_fold (victims : list (string * cache.AllocationInfo)) :
  ∀ (leaves : gmap string preemptionQueueContext) qn q,
    leaves !! qn = Some q →
    ∃ q', foldl (λ leaves (ua : string * cache.AllocationInfo),
                   alter (markPreempted ua.2) (cache.QueueName ua.2) leaves)
                leaves victims !! qn = Some q'
          ∧ queuePath q' = queuePath q ∧ parent q' = parent q
          ∧ schedulingQueue q' = schedulingQueue q
          ∧ max (resources q') = max (resources q)
          ∧ (∀ k, get (markedPreemptedResource (resources q')) k
                  = get (markedPreemptedResource (resources q)) k
                    + foldr Z.add 0
                        ((λ ua : string * cache.AllocationInfo,
                            get (cache.AllocatedResource ua.2) k)
                           <$> filter (λ ua, cache.QueueName ua.2 = qn) victims))
          ∧ (Forall (λ ua, cache.QueueName ua.2 ≠ qn) victims → q' = q).
Proof.
  induction victims as [|[u a] victims IH]; intros leaves qn q Hq.
  { exists q. repeat split; try done. intros k. rewrite filter_nil.
    simpl. by rewrite Z.add_0_r. }
  cbn [foldl snd]. destruct (decide (cache.QueueName a = qn)) as [<-|Hne].
  - destruct (IH (alter (markPreempted a) (cache.QueueName a) leaves)
                (cache.QueueName a) (markPreempted a q))
      as (q' & Hq' & Hpath & Hpar & Hsq & Hmax & Hmark & _).
    { by rewrite lookup_alter_eq, Hq. }
    exists q'. split; [done|]. repeat split; try done.
    + intros k. rewrite Hmark, filter_cons_True by done.
      change (markedPreemptedResource (resources (markPreempted a q)))
        with (Add (markedPreemptedResource (resources q))
                  (cache.AllocatedResource a)).
      rewrite get_Add. cbn [fmap list_fmap foldr snd]. lia.
    + intros Hall. apply Forall_cons in Hall as [Hbad _]. done.
  - destruct (IH (alter (markPreempted a) (cache.QueueName a) leaves) qn q)
      as (q' & Hq' & Hpath & Hpar & Hsq & Hmax & Hmark & Hsame).
    { by rewrite lookup_alter_ne. }
    exists q'. split; [done|]. repeat split; try done.
    + intros k. by rewrite Hmark, filter_cons_False.
    + intros Hall. apply Forall_cons in Hall as [_ Hall]. by apply Hsame.
Qed.

Lemma markPreempted_fold_none (victims : list (string * cache.AllocationInfo)) :
  ∀ (leaves : gmap string preemptionQueueContext) qn,
    leaves !! qn = None →
    foldl (λ leaves (ua : string * cache.AllocationInfo),
             alter (markPreempted ua.2) (cache.QueueName ua.2) leaves)
          leaves victims !! qn = None.
Proof.
  induction victims as [|[u a] victims IH]; intros leaves qn Hq; [done|].
  cbn [foldl snd]. apply IH. rewrite lookup_alter. case_decide; [|done].
  subst. by rewrite Hq.
Qed.

(** X15: the proposal [createPreemptionAndAllocationProposal] builds is
    for the candidate ask on the node to allocate, with one release per
    entry of the release set, each of the preempted-by-scheduler kind, for
    the node's partition, with the uuid and application of its entry.  On
    the node the ask is added to the allocating and the released total to
    the preempting resource.  A leaf queue keeps its path, parent and max;
    its marked-preempted resource grows in every dimension by the sum over
    the victims of that queue, and no leaf queue appears or disappears. *)
Theorem createPreemptionAndAllocationProposal_effect ctx nodeToAllocate
    candidate pr :
  let result :=
    createPreemptionAndAllocationProposal ctx nodeToAllocate candidate pr in
  let allocation := result.1.1 in
  let ctx' := result.1.2 in
  let nodeAfter := result.2 in
  SchedulingAsk allocation = candidate
  ∧ allocationNodeId allocation = NodeId nodeToAllocate
  ∧ length (Releases allocation) = size (toReleaseAllocations pr)
  ∧ (∀ rel, rel ∈ Releases allocation ↔
       ∃ u a, toReleaseAllocations pr !! u = Some a
              ∧ rel = {| releaseUuid := u;
                         releaseApplicationId := cache.ApplicationId a;
                         releasePartitionName := Partition nodeToAllocate;
                         ReleaseType := PREEMPTED_BY_SCHEDULER |})
  ∧ nodeAfter
    = setNodeResources
        (Add (AllocatingResource nodeToAllocate) (AllocatedResource candidate))
        (Add (PreemptingResource nodeToAllocate) (totalReleasedResource pr))
        nodeToAllocate
  ∧ partitionTotalResource ctx' = partitionTotalResource ctx
  ∧ (∀ qn, leafQueues ctx !! qn = None → leafQueues ctx' !! qn = None)
  ∧ (∀ qn q, leafQueues ctx !! qn = Some q →
       ∃ q', leafQueues ctx' !! qn = Some q'
             ∧ queuePath q' = queuePath q ∧ parent q' = parent q
             ∧ max (resources q') = max (resources q)
             ∧ (∀ k, get (markedPreemptedResource (resources q')) k
                     = get (markedPreemptedResource (resources q)) k
                       + foldr Z.add 0
                           ((λ ua : string * cache.AllocationInfo,
                               get (cache.AllocatedResource ua.2) k)
                              <$> filter (λ ua, cache.QueueName ua.2 = qn)
                                    (map_to_list (toReleaseAllocations pr))))
             ∧ ((∀ u a, toReleaseAllocations pr !! u = Some a →
                   cache.QueueName a ≠ qn) → q' = q)).
Proof.
  cbv zeta. unfold createPreemptionAndAllocationProposal. cbn [fst snd].
  cbn [SchedulingAsk allocationNodeId Releases NewSchedulingAllocation
       partitionTotalResource leafQueues].
  split; [done|]. split; [done|]. split.
  { by rewrite length_fmap, length_map_to_list. }
  split.
  { intros rel. rewrite list_elem_of_fmap. split.
    - intros ([u a] & -> & Hin). apply elem_of_map_to_list in Hin.
      by exists u, a.
    - intros (u & a & Hin & ->). exists (u, a).
      split; [done|]. by apply elem_of_map_to_list. }
  split; [done|]. split; [done|]. split.
  { intros qn Hq. by apply markPreempted_fold_none. }
  intros qn q Hq.
  destruct (markPreempted_fold (map_to_list (toReleaseAllocations pr))
              (leafQueues ctx) qn q Hq)
    as (q' & Hq' & Hpath & Hpar & _ & Hmax & Hmark & Hsame).
  exists q'. repeat split; try done.
  intros Hnone. apply Hsame. apply Forall_forall. intros [u a] Hin.
  apply elem_of_map_to_list in Hin. by apply (Hnone u a).
Qed.

Lemma firstPreemptResult_some
    (CheckAndAllocateResource : SchedulingNode → Resource → bool → bool * SchedulingNode)
    ctx preemptorQueue candidate nodes : ∀ hs r,
  (firstPreemptResult CheckAndAllocateResource ctx preemptorQueue nodes
     candidate hs).1 = Some r →
  ∃ before n after,
    nodes = before ++ n :: after
    ∧ (∀ m hs', m ∈ before →
         (trySurgicalPreemptionOnNode CheckAndAllocateResource ctx
            preemptorQueue m candidate hs').1 = None)
    ∧ (∀ hs',
         (trySurgicalPreemptionOnNode CheckAndAllocateResource ctx
            preemptorQueue n candidate hs').1 = Some r).
Proof.
  induction nodes as [|node rest IH]; intros hs r Hr; [done|].
  cbn [firstPreemptResult] in Hr.
  destruct (trySurgicalPreemptionOnNode CheckAndAllocateResource ctx
              preemptorQueue node candidate hs) as [[r0|] hs1] eqn:Htry.
  - simpl in Hr. injection Hr as ->. exists [], node, rest.
    split; [done|]. split; [by intros m hs' Hm%elem_of_nil|].
    intros hs'.
    rewrite (surgical_facts.trySurgical_result_any_shortages
               CheckAndAllocateResource ctx preemptorQueue candidate node hs' hs).
    by rewrite Htry.
  - destruct (IH hs1 r Hr) as (before & n & after & -> & Hnone & Hsome).
    exists (node :: before), n, after. split; [done|]. split; [|done].
    intros m hs' [->|Hm]%elem_of_cons; [|by apply Hnone].
    rewrite (surgical_facts.trySurgical_result_any_shortages
               CheckAndAllocateResource ctx preemptorQueue candidate node hs' hs).
    by rewrite Htry.
Qed.

(** X16: a proposal returned by [crossQueuePreemptionAllocate] is for the
    candidate ask, on the first node in the order of the slice for which
    [trySurgicalPreemptionOnNode] does not return nil (for every node
    before it the call returns nil), and it carries one release per entry
    of that node's release set, each naming an allocation of the release
    set. *)
Theorem crossQueuePreemptionAllocate_first_node
    (CheckAndAllocateResource : SchedulingNode → Resource → bool → bool * SchedulingNode)
    ctx nodes candidate allocation :
  crossQueuePreemptionAllocate CheckAndAllocateResource (Some ctx) nodes
    candidate = Some allocation →
  ∃ preemptorQueue before n after r,
    leafQueues ctx !! QueueName candidate = Some preemptorQueue
    ∧ nodes = before ++ n :: after
    ∧ (∀ m hs, m ∈ before →
         (trySurgicalPreemptionOnNode CheckAndAllocateResource ctx
            preemptorQueue m candidate hs).1 = None)
    ∧ (∀ hs,
         (trySurgicalPreemptionOnNode CheckAndAllocateResource ctx
            preemptorQueue n candidate hs).1 = Some r)
    ∧ SchedulingAsk allocation = candidate
    ∧ allocationNodeId allocation = NodeId (node r)
    ∧ length (Releases allocation) = size (toReleaseAllocations r)
    ∧ ∀ rel, rel ∈ Releases allocation →
        ∃ a, toReleaseAllocations r !! releaseUuid rel = Some a
             ∧ releaseApplicationId rel = cache.ApplicationId a
             ∧ ReleaseType rel = PREEMPTED_BY_SCHEDULER.
Proof.
  unfold crossQueuePreemptionAllocate.
  destruct (leafQueues ctx !! QueueName candidate) as [pq|] eqn:Hq; [|done].
  destruct (firstPreemptResult CheckAndAllocateResource ctx pq nodes candidate
              (initHeadroomShortages pq (AllocatedResource candidate)))
    as [[r|] hs1] eqn:Hfirst; [|done].
  intros Halloc. apply (inj Some) in Halloc.
  destruct (firstPreemptResult_some CheckAndAllocateResource ctx pq candidate
              nodes (initHeadroomShortages pq (AllocatedResource candidate)) r)
    as (before & n & after & Hnodes & Hnone & Hsome); [by rewrite Hfirst|].
  exists pq, before, n, after, r. split; [done|]. split; [done|].
  split; [done|]. split; [done|].
  match type of Halloc with
  | (createPreemptionAndAllocationProposal ?c ?nd ?cand ?pr).1.1 = _ =>
      pose proof (createPreemptionAndAllocationProposal_effect c nd cand pr)
        as Heff
  end.
  cbv zeta in Heff. rewrite Halloc in Heff.
  destruct Heff as (Hask & Hnode & Hlen & Hrel & _).
  split; [done|]. split; [done|]. split; [done|].
  intros rel Hin. apply Hrel in Hin as (u & a & Hu & ->). by exists a.
Qed.

Lemma crossQueuePreemptionAllocate_first_node_witness :
  ∃ allocation,
    crossQueuePreemptionAllocate fitCheck (Some partitionCtx)
      [bareNode; fullNode] highAsk = Some allocation
    ∧ allocationNodeId allocation = "node-1"%string.
Proof.
  destruct (crossQueuePreemptionAllocate fitCheck (Some partitionCtx)
              [bareNode; fullNode] highAsk) as [allocation|] eqn:Hc;
    [|by vm_compute in Hc].
  exists allocation. split; [done|].
  destruct (crossQueuePreemptionAllocate_first_node fitCheck partitionCtx
              [bareNode; fullNode] highAsk allocation Hc)
    as (pq & before & n & after & r & _ & _ & _ & _ & _ & _ & _).
  vm_compute in Hc. by injection Hc as <-.
Defined.

End proposal_facts.
